(** * pre-commit-go: the check scheduler and the coverage check

    A shallow embedding of the parts of pre-commit-go that carry its
    behaviour: [rsplitn] and the merge of the coverage profiles, the
    coverage check [TestCoverage.run] around it, the run-level filter
    [Config.EnabledChecks], the scheduler [run] with its buffered error
    channel, the checks that judge a tool by its output, the checks that run
    one command or a series of commands ([BuildOnly], [Errcheck], [Test],
    [CustomCheck]), and the commands [help] and [installPrereq].

    The repository holds two generations of the program. The definitions
    follow the current one: package [main] with [Config], [EnabledChecks] and
    [run], and package [checks] with the checks. [capture], [reverse] and
    [rsplitn], which package [checks] calls, are taken from the older
    single-file program pre-commit-go.go, where they are defined; the
    coverage check of that older program is modelled next to the current
    one, in module [Legacy], because the two differ.

    Conventions.
    - A Go [string] is a Rocq [string]; coverage profiles are ASCII text, so
      one character stands for one rune and [len] counts characters.
    - A Go [int] is a 64-bit two's-complement integer, a [Z] kept in range by
      [wrap]; a [time.Duration] is an [int64] count of nanoseconds.
    - A Go [error] is a value of the inductive type [error]; one constructor
      per place where the program builds an error, carrying the values that
      the message is formatted from.
    - A run-time panic (index out of range, an explicit [panic]) is the
      outcome [Panic]. *)

From Stdlib Require Import ZArith Lia Ascii String List Bool PrimFloat.
From stdpp Require Import base option list gmap strings fin_maps sorting.

Local Open Scope Z_scope.

(** ** Go integers *)

Module GoInt.

Definition intSize : Z := 64.
Definition minInt : Z := - 2 ^ 63.
Definition maxInt : Z := 2 ^ 63 - 1.

(** Two's-complement reduction of a mathematical integer to an [int]. *)
Definition wrap (x : Z) : Z := (x + 2 ^ 63) mod 2 ^ 64 - 2 ^ 63.

Definition in_range (x : Z) : Prop := minInt <= x <= maxInt.

(** [a + b] and [a * b] on [int]. *)
Definition add (a b : Z) : Z := wrap (a + b).
Definition mul (a b : Z) : Z := wrap (a * b).

End GoInt.

(** ** Outcomes of fallible code *)

(** [Ok a]: normal return; [Err e]: the function returns the error [e];
    [Panic]: the goroutine panics. *)
Inductive outcome (E A : Type) : Type :=
| Ok (a : A)
| Err (e : E)
| Panic.
Arguments Ok {E A} a.
Arguments Err {E A} e.
Arguments Panic {E A}.

#[global] Instance outcome_ret {E} : MRet (outcome E) := fun _ a => Ok a.
#[global] Instance outcome_bind {E} : MBind (outcome E) := fun _ _ k m =>
  match m with
  | Ok a => k a
  | Err e => Err e
  | Panic => Panic
  end.

(** ** The pieces of Go's [strings] and [strconv] packages that the program calls *)

Module GoStrings.

(** [strings.Contains(s, substr)]. *)
Fixpoint Contains (s substr : string) : bool :=
  String.prefix substr s ||
  match s with
  | EmptyString => false
  | String _ s' => Contains s' substr
  end.

(** The scan of [genSplit] for a non-empty separator. [skip] counts the
    characters of a separator just matched that are still to be passed
    over; [limit] is the number of pieces that may still be produced
    ([None]: no bound). The head of the result is the piece that starts
    at the current position. *)
Fixpoint scan (sep s : string) (skip : nat) (limit : option nat) : list string :=
  match s with
  | EmptyString => [EmptyString]
  | String c s' =>
      match skip with
      | S k => scan sep s' k limit
      | O =>
          let more := match limit with None => true | Some k => (1 <? k)%nat end in
          if more && String.prefix sep s
          then EmptyString :: scan sep s' (String.length sep - 1) (pred <$> limit)
          else match scan sep s' O limit with
               | p :: ps => String c p :: ps
               | [] => [String c EmptyString]
               end
      end
  end.

(** [explode]: the empty separator splits after every character. *)
Fixpoint explode (s : string) (limit : option nat) : list string :=
  match s with
  | EmptyString => []
  | String c s' =>
      match limit with
      | Some 1%nat => [s]
      | _ =>
          match s' with
          | EmptyString => [s]
          | _ => String c EmptyString :: explode s' (pred <$> limit)
          end
      end
  end.

(** [strings.SplitN(s, sep, n)]: [n > 0] at most [n] pieces, the last one
    the unsplit remainder; [n == 0] nil; [n < 0] all pieces. *)
Definition SplitN (s sep : string) (n : Z) : list string :=
  if n =? 0 then []
  else
    let limit := if n <? 0 then None else Some (Z.to_nat n) in
    match sep with
    | EmptyString => explode s limit
    | _ => scan sep s O limit
    end.

(** [strings.Split(s, sep)] is [SplitN(s, sep, -1)]. *)
Definition Split (s sep : string) : list string := SplitN s sep (-1).

(** [strings.TrimLeft(s, cutset)]. *)
Fixpoint TrimLeft (s cutset : string) : string :=
  match s with
  | EmptyString => EmptyString
  | String c s' =>
      if Contains cutset (String c EmptyString) then TrimLeft s' cutset else s
  end.

(** [strings.Join(a, sep)]. *)
Fixpoint Join (a : list string) (sep : string) : string :=
  match a with
  | [] => EmptyString
  | [x] => x
  | x :: rest => x +:+ sep +:+ Join rest sep
  end.

End GoStrings.

Module Strconv.

(** The two [*NumError] causes. *)
Inductive NumError := ErrSyntax | ErrRange.

Definition digit (c : ascii) : option Z :=
  let n := Z.of_nat (nat_of_ascii c) in
  if (48 <=? n) && (n <=? 57) then Some (n - 48) else None.

(** The digit loop of [ParseUint] in base 10; [None] at the first
    character that is not a digit. *)
Fixpoint digits (s : string) (acc : Z) : option Z :=
  match s with
  | EmptyString => Some acc
  | String c s' =>
      match digit c with
      | Some d => digits s' (10 * acc + d)
      | None => None
      end
  end.

(** [ParseUint(s, 10, 64)] up to overflow: the empty string is a syntax
    error. The value is not cut at [2^64]; the range check of [ParseInt]
    below rejects every value from [2^63] on. *)
Definition ParseUint (s : string) : option Z :=
  match s with
  | EmptyString => None
  | _ => digits s 0
  end.

(** The second half of [ParseInt]: convert the unsigned part and check the
    range against [cutoff = 1 << 63]. *)
Definition ParseInt_signed (neg : bool) (body : string) : NumError + Z :=
  match ParseUint body with
  | None => inl ErrSyntax
  | Some un =>
      let cutoff := 2 ^ (GoInt.intSize - 1) in
      if negb neg && (cutoff <=? un) then inl ErrRange
      else if neg && (cutoff <? un) then inl ErrRange
      else inr (if neg then - un else un)
  end.

(** [strconv.Atoi(s)], that is [ParseInt(s, 10, 0)]: an optional sign, then
    one or more decimal digits, with a value that fits an [int]. *)
Definition Atoi (s : string) : NumError + Z :=
  match s with
  | EmptyString => inl ErrSyntax
  | String c s' =>
      if Ascii.eqb c "+" then ParseInt_signed false s'
      else if Ascii.eqb c "-" then ParseInt_signed true s'
      else ParseInt_signed false s
  end.

End Strconv.

(** ** Errors *)

(** The error values of the program. [ErrOS] stands for an error handed back
    by the operating system or a library call ([os.Open], [os.Create],
    [filepath.Glob], [ioutil.TempDir], [os.RemoveAll], a command that could
    not be launched, [relToGOPATH]). *)
Inductive error : Type :=
| ErrOS (msg : string)
| ErrAtoi (num : string) (cause : Strconv.NumError)
    (* *strconv.NumError returned by Atoi *)
| ErrNoCoverage
    (* errors.New("no coverage found") *)
| ErrMalformedCoverage
    (* fmt.Errorf("malformed coverage file") *)
| ErrCoverage (total : float) (partial : nat)
    (* fmt.Errorf("code coverage: %3.1f%%; %d untested functions", total, partial) *)
| ErrTestFailed (pkg tmpDir : string) (index : nat) (testDir out : string)
    (* fmt.Errorf("%s %s failed:\n%s", strings.Join(args, " "), testDir, out),
       where args is the go test command line built from pkg, tmpDir and index *)
| ErrImproperlyFormatted (tool out : string)
    (* fmt.Errorf("these files are improperly formmatted, please run: ...\n%s", out) *)
| ErrToolFailed (cmd : string) (cause : error)
    (* fmt.Errorf("... failed: %s", err) *)
| ErrNew (msg : string)
    (* errors.New(msg) *)
| ErrCheckTook (name : string) (duration : Z)
    (* fmt.Errorf("check %s took %1.2fs", check.GetName(), duration.Seconds()) *)
| ErrChecksFailed (duration : Z).
    (* fmt.Errorf("checks failed in %1.2fs", duration.Seconds()) *)

(** ** [reverse] and [rsplitn] *)

(** The loop of [reverse]: [acc] is the slice [runes[n:]] filled so far; each
    rune is stored just in front of it. *)
Fixpoint reverse_loop (s acc : string) : string :=
  match s with
  | EmptyString => acc
  | String r s' => reverse_loop s' (String r acc)
  end.

Definition reverse (s : string) : string := reverse_loop s EmptyString.

(** One round of the first loop of [rsplitn]:
    [items[i], items[j] = reverse(items[j]), reverse(items[i])] with
    [j := l - i - 1]. Both indices are in range for [i < l/2]. *)
Definition swap_reversed (items : list string) (i : nat) : list string :=
  let j := (length items - i - 1)%nat in
  match items !! i, items !! j with
  | Some a, Some b => <[j := reverse a]> (<[i := reverse b]> items)
  | _, _ => items
  end.

Definition rsplitn (s sep : string) (n : Z) : list string :=
  let items := GoStrings.SplitN (reverse s) sep n in
  let l := length items in
  let items := fold_left swap_reversed (seq 0 (l / 2)) items in
  if Nat.odd l
  then match items !! (l / 2)%nat with
       | Some m => <[(l / 2)%nat := reverse m]> items
       | None => items
       end
  else items.

(** ** The merge of the coverage profiles ([TestCoverage.run]) *)

(** A profile file is the list of its lines as [bufio.Scanner] hands them
    out, the header line first; [inl err] is a file that [os.Open] fails on
    with [err]. [counts] is the Go map [map[string]int]. *)

(** [counts[key] += int(count)]: a key that is not in the map reads as 0. *)
Definition add_count (counts : gmap string Z) (key : string) (count : Z) : gmap string Z :=
  <[key := GoInt.add (default 0 (counts !! key)) count]> counts.

(** What the body of the inner loop reads in one line:
    [items := rsplitn(s.Text(), " ", 2)] and
    [count, err2 = strconv.Atoi(items[1])]; the loop breaks on [err2] and
    the function then returns it. Indexing [items] past its length panics. *)
Definition read_line (line : string) : outcome error (string * Z) :=
  let items := rsplitn line " " 2 in
  match items !! 1%nat with
  | None => Panic
  | Some field =>
      match Strconv.Atoi field with
      | inl cause => Err (ErrAtoi field cause)
      | inr count =>
          match items !! 0%nat with
          | None => Panic
          | Some key => Ok (key, count)
          end
      end
  end.

(** The body of the inner loop: read the line, then
    [counts[items[0]] += int(count)]. *)
Definition merge_line (counts : gmap string Z) (line : string)
  : outcome error (gmap string Z) :=
  '(key, count) ← read_line line; Ok (add_count counts key count).

Fixpoint merge_lines (counts : gmap string Z) (lines : list string)
  : outcome error (gmap string Z) :=
  match lines with
  | [] => Ok counts
  | line :: rest => counts' ← merge_line counts line; merge_lines counts' rest
  end.

(** One round of the outer loop: open the file, strip the first line, merge
    the others. *)
Definition merge_file (counts : gmap string Z) (file : error + list string)
  : outcome error (gmap string Z) :=
  match file with
  | inl err => Err err
  | inr lines => merge_lines counts (tail lines)
  end.

Fixpoint merge_files (counts : gmap string Z) (files : list (error + list string))
  : outcome error (gmap string Z) :=
  match files with
  | [] => Ok counts
  | file :: rest => counts' ← merge_file counts file; merge_files counts' rest
  end.

(** [counts := map[string]int{}] and the loop over [files]. *)
Definition merge (files : list (error + list string)) : outcome error (gmap string Z) :=
  merge_files ∅ files.

(** The merged counts when the merge goes through. *)
Definition merged (files : list (error + list string)) : option (gmap string Z) :=
  match merge files with
  | Ok counts => Some counts
  | Err _ | Panic => None
  end.

(** The value of a normal return. *)
Definition to_option {E A} (o : outcome E A) : option A :=
  match o with
  | Ok a => Some a
  | _ => None
  end.

(** The keys and counts read in a file when every line of it can be read. *)
Definition file_entries (file : error + list string) : option (list (string * Z)) :=
  match file with
  | inl _ => None
  | inr lines => mapM (fun line => to_option (read_line line)) (tail lines)
  end.

Definition add_entry (counts : gmap string Z) (kc : string * Z) : gmap string Z :=
  add_count counts kc.1 kc.2.

(** *** Profiles as data *)

(** A profile line that has a space: the text before the last space and the
    text after it. *)
Record entry : Type := {
  statement : string;
  field : string
}.

Definition line_of (e : entry) : string := statement e +:+ " " +:+ field e.

(** A profile: its header line and its entries. *)
Record profile : Type := {
  header : string;
  entries : list entry
}.

Definition file_of (p : profile) : error + list string :=
  inr (header p :: (line_of <$> entries p)).

(** The trailing field has no space and is an integer that [Atoi] accepts. *)
Definition countable (e : entry) : Prop :=
  GoStrings.Contains (field e) " " = false ∧ ∃ n, Strconv.Atoi (field e) = inr n.

Definition count_of (e : entry) : Z :=
  match Strconv.Atoi (field e) with
  | inr n => n
  | inl _ => 0
  end.

(** The sum of the counts of the statement key [K] in a list of entries,
    in a profile and across profiles, as mathematical integers. *)
Fixpoint key_sum (K : string) (es : list entry) : Z :=
  match es with
  | [] => 0
  | e :: rest => (if decide (statement e = K) then count_of e else 0) + key_sum K rest
  end.

Definition profile_sum (K : string) (p : profile) : Z := key_sum K (entries p).

Fixpoint profiles_sum (K : string) (ps : list profile) : Z :=
  match ps with
  | [] => 0
  | p :: rest => profile_sum K p + profiles_sum K rest
  end.

(** The key and the count that an entry stands for. *)
Definition pair_of (e : entry) : string * Z := (statement e, count_of e).

(** [K] appears in a profile. *)
Definition appears (K : string) (p : profile) : Prop :=
  ∃ e, e ∈ entries p ∧ statement e = K.

(** *** Example profiles *)

(** The two profiles of the end-to-end example. *)
Definition P1 : profile :=
  {| header := "mode: count";
     entries := [ {| statement := "a.go:1.1,1.5 2"; field := "3" |} ] |}.

Definition P2 : profile :=
  {| header := "mode: count";
     entries := [ {| statement := "a.go:1.1,1.5 2"; field := "4" |};
                  {| statement := "b.go:2.1,2.5 1"; field := "1" |} ] |}.


Definition P_one : profile :=
  {| header := "mode: count";
     entries := [ {| statement := "a.go:1.1,1.5 2"; field := "1" |} ] |}.


Definition bad_count_line : string := "a.go:1.1,1.5 2 many".

(** ** Writing the merged profile *)

Definition digit_char (d : Z) : ascii := ascii_of_nat (Z.to_nat (48 + d)).

(** The decimal digits of [n >= 0], most significant first, in front of
    [acc]; [fuel + 1] digits at most. *)
Fixpoint utoa (fuel : nat) (n : Z) (acc : string) : string :=
  let acc' := String (digit_char (n mod 10)) acc in
  match fuel with
  | O => acc'
  | S fuel' => if n <? 10 then acc' else utoa fuel' (n / 10) acc'
  end.

(** The verb [%d] of [fmt] on an [int]. *)
Definition Itoa (n : Z) : string :=
  if n <? 0 then String "-" (utoa 19 (- n) "") else utoa 19 n "".

(** [stms], the keys of [counts] after [sort.Strings], and the lines written
    to [profile.cov]: the header, then ["%s %d"] of every key and its count. *)
Definition sorted_keys (counts : gmap string Z) : list string :=
  merge_sort String.le (map_to_list counts).*1.

(** The entry that [emit] writes for the key [stm]. *)
Definition written (counts : gmap string Z) (stm : string) : entry :=
  {| statement := stm; field := Itoa (default 0 (counts !! stm)) |}.

Definition emit (counts : gmap string Z) : list string :=
  "mode: count"
  :: ((fun stm => stm +:+ " " +:+ Itoa (default 0 (counts !! stm))) <$> sorted_keys counts).

(** ** Checks and their configuration (package [checks], [Config]) *)

Record CheckPrerequisite : Type := {
  HelpCommand : list string;
  ExpectedExitCode : Z;
  URL : string
}.

Record CheckCommon : Type := {
  RunLevel : Z;
  MaxDuration : Z
}.

Record BuildOnly : Type := { BuildOnly_Common : CheckCommon; BuildOnly_ExtraArgs : list (list string) }.
Record Gofmt : Type := { Gofmt_Common : CheckCommon }.
Record Test : Type := { Test_Common : CheckCommon; Test_ExtraArgs : list (list string) }.
Record Errcheck : Type := { Errcheck_Common : CheckCommon; Ignores : string }.
Record Goimports : Type := { Goimports_Common : CheckCommon }.
Record Golint : Type := { Golint_Common : CheckCommon; Golint_Blacklist : list string }.
Record Govet : Type := { Govet_Common : CheckCommon; Govet_Blacklist : list string }.
Record TestCoverage : Type := { TestCoverage_Common : CheckCommon; MinimumCoverage : float }.
Record CustomCheck : Type := {
  Custom_Common : CheckCommon;
  Name : string;
  Description : string;
  Command : list string;
  CheckExitCode : bool;
  Prerequisites : list CheckPrerequisite
}.

(** The values behind the [Check] interface: [checkAdaptor] wraps a pointer to
    one of the nine concrete types. *)
Inductive check : Type :=
| CheckBuildOnly (b : BuildOnly)
| CheckGofmt (g : Gofmt)
| CheckTest (t : Test)
| CheckErrcheck (e : Errcheck)
| CheckGoimports (g : Goimports)
| CheckGolint (g : Golint)
| CheckGovet (g : Govet)
| CheckTestCoverage (t : TestCoverage)
| CheckCustom (c : CustomCheck).

Definition common (c : check) : CheckCommon :=
  match c with
  | CheckBuildOnly b => BuildOnly_Common b
  | CheckGofmt g => Gofmt_Common g
  | CheckTest t => Test_Common t
  | CheckErrcheck e => Errcheck_Common e
  | CheckGoimports g => Goimports_Common g
  | CheckGolint g => Golint_Common g
  | CheckGovet g => Govet_Common g
  | CheckTestCoverage t => TestCoverage_Common t
  | CheckCustom c => Custom_Common c
  end.

Definition GetRunLevel (c : check) : Z := RunLevel (common c).
Definition GetMaxDuration (c : check) : Z := MaxDuration (common c).

Definition GetName (c : check) : string :=
  match c with
  | CheckBuildOnly _ => "build"
  | CheckGofmt _ => "gofmt"
  | CheckTest _ => "test"
  | CheckErrcheck _ => "errcheck"
  | CheckGoimports _ => "goimports"
  | CheckGolint _ => "golint"
  | CheckGovet _ => "govet"
  | CheckTestCoverage _ => "testcoverage"
  | CheckCustom c => Name c
  end.

Record Config : Type := {
  Config_MaxDuration : Z;
  Config_BuildOnly : BuildOnly;
  Config_Gofmt : Gofmt;
  Config_Test : Test;
  Config_Errcheck : Errcheck;
  Config_Goimports : Goimports;
  Config_Golint : Golint;
  Config_Govet : Govet;
  Config_TestCoverage : TestCoverage;
  Config_CustomChecks : list CustomCheck
}.

Definition AllChecks (c : Config) : list check :=
  [ CheckBuildOnly (Config_BuildOnly c);
    CheckGofmt (Config_Gofmt c);
    CheckTest (Config_Test c);
    CheckErrcheck (Config_Errcheck c);
    CheckGoimports (Config_Goimports c);
    CheckGolint (Config_Golint c);
    CheckGovet (Config_Govet c);
    CheckTestCoverage (Config_TestCoverage c) ]
  ++ map CheckCustom (Config_CustomChecks c).

(** [EnabledChecks]: the loop appends [c] when [c.GetRunLevel() <= runLevel]. *)
Definition EnabledChecks (c : Config) (runLevel : Z) : list check :=
  filter (fun c => GetRunLevel c <= runLevel) (AllChecks c).

(** The configuration [getConfig] builds when no file overrides it: every
    check after [resetDefault], [MaxDuration] 120. *)
Definition defaultConfig : Config := {|
  Config_MaxDuration := 120;
  Config_BuildOnly := {| BuildOnly_Common := {| RunLevel := 1; MaxDuration := 0 |};
                         BuildOnly_ExtraArgs := [[]] |};
  Config_Gofmt := {| Gofmt_Common := {| RunLevel := 1; MaxDuration := 0 |} |};
  Config_Test := {| Test_Common := {| RunLevel := 1; MaxDuration := 0 |};
                    Test_ExtraArgs := [["-v"; "-race"]] |};
  Config_Errcheck := {| Errcheck_Common := {| RunLevel := 2; MaxDuration := 0 |};
                        Ignores := "Close" |};
  Config_Goimports := {| Goimports_Common := {| RunLevel := 2; MaxDuration := 0 |} |};
  Config_Golint := {| Golint_Common := {| RunLevel := 3; MaxDuration := 0 |};
                      Golint_Blacklist := [] |};
  Config_Govet := {| Govet_Common := {| RunLevel := 3; MaxDuration := 0 |};
                     Govet_Blacklist := [" composite literal uses unkeyed fields"] |};
  Config_TestCoverage := {| TestCoverage_Common := {| RunLevel := 2; MaxDuration := 0 |};
                            MinimumCoverage := 20%float |};
  Config_CustomChecks := []
|}.

(** ** Running a command ([captureWd], [capture]) *)

(** What [exec.Command(...).CombinedOutput()] comes to: the combined output,
    the error it returns, and the exit status of the process when there is a
    [ProcessState]. *)
Record process : Type := {
  CombinedOutput : string;
  CombinedOutput_err : option error;
  ExitStatus : option Z
}.

(** [captureWd]: the output, the exit code ([-1] without a process state) and
    the error, which is dropped when the exit code is not 0. *)
Definition capture (p : process) : string * Z * option error :=
  match ExitStatus p with
  | Some exitCode =>
      (CombinedOutput p, exitCode,
       if exitCode =? 0 then CombinedOutput_err p else None)
  | None => (CombinedOutput p, -1, CombinedOutput_err p)
  end.

(** ** The output-policy checks *)

Definition newline : string := String "010" "".

(** [Gofmt.run]; [p] is the run of [gofmt -l -s .]. *)
Definition Gofmt_run (g : Gofmt) (p : process) : option error :=
  let '(out, _, err) := capture p in
  if negb (String.length out =? 0)%nat then Some (ErrImproperlyFormatted "gofmt" out)
  else match err with
       | Some e => Some (ErrToolFailed "gofmt -l -s ." e)
       | None => None
       end.

(** [Goimports.run]; [p] is the run of [goimports -l .]. *)
Definition Goimports_run (g : Goimports) (p : process) : option error :=
  let '(out, _, err) := capture p in
  if negb (String.length out =? 0)%nat then Some (ErrImproperlyFormatted "goimports" out)
  else match err with
       | Some e => Some (ErrToolFailed "goimports -w ." e)
       | None => None
       end.

(** The inner loop of [Golint.run] and [Govet.run],
    [for _, b := range g.Blacklist { if strings.Contains(line, b) { continue } }]:
    the [continue] goes on with the next entry of the blacklist, and the
    loop has no other statement. *)
Fixpoint blacklist_loop (line : string) (blacklist : list string) : unit :=
  match blacklist with
  | [] => tt
  | b :: rest =>
      if GoStrings.Contains line b
      then blacklist_loop line rest
      else blacklist_loop line rest
  end.

(** The outer loop: after the inner loop, [result = append(result, line)]. *)
Definition filter_lines (out : string) (blacklist : list string) : list string :=
  fold_left
    (fun result line => let 'tt := blacklist_loop line blacklist in result ++ [line])
    (GoStrings.Split out newline) [].

(** The end of [Golint.run] and [Govet.run]:
    [if len(result) == 0 { return errors.New(strings.Join(result, "\n")) }]
    and [return nil]. *)
Definition lint_verdict (result : list string) : option error :=
  if (length result =? 0)%nat
  then Some (ErrNew (GoStrings.Join result newline))
  else None.

(** [Golint.run]; [p] is the run of [golint ./...]. *)
Definition Golint_run (g : Golint) (p : process) : option error :=
  let '(out, _, _) := capture p in
  lint_verdict (filter_lines out (Golint_Blacklist g)).

(** [Govet.run]; [p] is the run of [go tool vet -all .]. *)
Definition Govet_run (g : Govet) (p : process) : option error :=
  let '(out, _, _) := capture p in
  lint_verdict (filter_lines out (Govet_Blacklist g)).

(** golint reports one exported function without a comment and exits 0. *)
Definition golint_complains : process := {|
  CombinedOutput :=
    "main.go:12:1: exported function Run should have comment or be unexported" +:+ newline;
  CombinedOutput_err := None;
  ExitStatus := Some 0
|}.

(** A tool that prints nothing and exits 0, and one that prints nothing and
    exits 2. *)
Definition silent_success : process :=
  {| CombinedOutput := ""; CombinedOutput_err := None; ExitStatus := Some 0 |}.

Definition silent_failure : process :=
  {| CombinedOutput := "";
     CombinedOutput_err := Some (ErrOS "exit status 2");
     ExitStatus := Some 2 |}.

(** ** The coverage check ([TestCoverage.run]) *)

(** Everything outside the program that one run of the coverage check
    depends on. *)
Record coverage_env : Type := {
  relToGOPATH_pkgRoot : error + string;  (* [relToGOPATH(pkgRoot)] *)
  testDirs : list string;                (* [goDirs(true)] *)
  TempDir : error + string;              (* [ioutil.TempDir] *)
  go_test : nat -> process;              (* [go test] in the i-th test directory *)
  arrival : list nat;                    (* the order in which the test tasks end *)
  Glob : error + list (error + list string);
                                         (* [filepath.Glob], then [os.Open] and
                                            the lines of every file found *)
  Create : option error;                 (* [os.Create(profilePath)] *)
  cover_func : list string -> process;   (* [go tool cover -func] on the profile *)
  TRAVIS_JOB_ID : string;                (* [os.Getenv("TRAVIS_JOB_ID")] *)
  goveralls : list string -> process;    (* [goveralls -coverprofile] on the profile *)
  RemoveAll : option error               (* [os.RemoveAll(tmpDir)] *)
}.

(** The buffer of the private channel [errs] after [wg.Wait()]: one error per
    test directory whose [go test] exits with a code other than 0, in the
    order in which the tasks end. Each task sends at most once and the
    channel has one slot per test directory. *)
Definition fan_out (env : coverage_env) (pkg tmpDir : string) : list error :=
  omap (fun index =>
          testDir ← testDirs env !! index;
          let '(out, exitCode, _) := capture (go_test env index) in
          if exitCode =? 0 then None
          else Some (ErrTestFailed pkg tmpDir index testDir out))
       (arrival env).

(** [select { case err = <-errs: default: }] on a buffer. *)
Definition receive (buffer : list error) : option error := head buffer.

Definition tab : string := String "009" "".

(** The function coverage read so far: [total] and the map [coverage]. *)
Definition summary : Type := float * gmap (string * string) float.

(** [partial]: the number of functions with less than 100 percent. *)
Definition untested (coverage : gmap (string * string) float) : nat :=
  map_fold (fun _ percent partial => if PrimFloat.ltb percent 100 then S partial else partial)
    0%nat coverage.

Section Analyze.

(** [strconv.ParseFloat(s, 64)]; [None] when it returns an error. *)
Variable ParseFloat : string -> option float.

(** What the loop does when [ParseFloat] fails: package [checks] returns
    "malformed coverage file", the older program panics. *)
Variable on_parse_error : outcome error summary.

(** The body of the loop over the lines of [go tool cover -func] for a line
    other than the first. *)
Definition analyze_line (st : summary) (line : string) : outcome error summary :=
  if (String.length line =? 0)%nat then Ok st
  else
    let items := GoStrings.SplitN line tab 2 in
    match items !! 0%nat with
    | None => Panic
    | Some loc =>
        if (length items =? 1)%nat then Panic
        else
          match items !! 1%nat with
          | None => Panic
          | Some rest =>
              let items := GoStrings.SplitN (GoStrings.TrimLeft rest tab) tab 2 in
              match items !! 0%nat, items !! 1%nat with
              | Some name, Some last =>
                  let percentStr := GoStrings.TrimLeft last tab in
                  if (String.length percentStr =? 0)%nat then Panic
                  else
                    match ParseFloat
                            (String.substring 0 (String.length percentStr - 1) percentStr) with
                    | None => on_parse_error
                    | Some percent =>
                        if String.eqb loc "total:"
                        then Ok (percent, st.2)
                        else Ok (st.1, <[(loc, name) := percent]> st.2)
                    end
              | _, _ => Panic
              end
          end
    end.

Fixpoint analyze_lines (st : summary) (lines : list string) : outcome error summary :=
  match lines with
  | [] => Ok st
  | line :: rest => st' ← analyze_line st line; analyze_lines st' rest
  end.

(** The loop over [strings.Split(out, "\n")], which skips the line of index
    0; [total] starts at 0 and [coverage] empty. *)
Definition analyze (out : string) : outcome error summary :=
  analyze_lines (0%float, ∅) (tail (GoStrings.Split out newline)).

(** [if total < t.MinimumCoverage { err2 = fmt.Errorf("code coverage: ...") }]. *)
Definition threshold (minimum : float) (st : summary) (err : option error) : option error :=
  if PrimFloat.ltb st.1 minimum
  then Some (ErrCoverage st.1 (untested st.2))
  else err.

End Analyze.

(** What a run of the check comes to: whether goveralls was run, and the
    value returned ([Ok tt] for [nil]) or a panic. *)
Record report : Type := {
  uploaded : bool;
  result : outcome error unit
}.

Definition returning (err : option error) : outcome error unit :=
  match err with
  | Some e => Err e
  | None => Ok tt
  end.

Definition ci (env : coverage_env) : bool :=
  negb (String.length (TRAVIS_JOB_ID env) =? 0)%nat.

Module Current.

(** [TestCoverage.run] of package [checks], from the merge on. *)
Definition analyze_and_upload (ParseFloat : string -> option float)
    (t : TestCoverage) (env : coverage_env) (queue : list error)
    (files : list (error + list string)) : report :=
  match merge files with
  | Err e => {| uploaded := false; result := Err e |}
  | Panic => {| uploaded := false; result := Panic |}
  | Ok counts =>
      match Create env with
      | Some e => {| uploaded := false; result := Err e |}
      | None =>
          let profile := emit counts in
          let '(out, _, err2) := capture (cover_func env profile) in
          match analyze ParseFloat (Err ErrMalformedCoverage) out with
          | Err e => {| uploaded := false; result := Err e |}
          | Panic => {| uploaded := false; result := Panic |}
          | Ok st =>
              let err2 := threshold (MinimumCoverage t) st err2 in
              let err2 := match err2 with
                          | None => receive queue
                          | Some _ => err2
                          end in
              if ci env
              then
                let '(_, _, err3) := capture (goveralls env profile) in
                {| uploaded := true;
                   result := returning match err2 with
                                       | None => err3
                                       | Some _ => err2
                                       end |}
              else {| uploaded := false; result := returning err2 |}
          end
      end
  end.

(** The deferred function: [os.RemoveAll(tmpDir)], whose error becomes the
    result when the result is [nil]. *)
Definition cleanup (env : coverage_env) (r : report) : report :=
  {| uploaded := uploaded r;
     result := match result r with
               | Ok tt => returning (RemoveAll env)
               | other => other
               end |}.

Definition TestCoverage_run (ParseFloat : string -> option float)
    (t : TestCoverage) (env : coverage_env) : report :=
  match relToGOPATH_pkgRoot env with
  | inl e => {| uploaded := false; result := Err e |}
  | inr pkg =>
      match testDirs env with
      | [] => {| uploaded := false; result := Ok tt |}
      | _ :: _ =>
          match TempDir env with
          | inl e => {| uploaded := false; result := Err e |}
          | inr tmpDir =>
              let queue := fan_out env pkg tmpDir in
              cleanup env
                match Glob env with
                | inl e => {| uploaded := false; result := Err e |}
                | inr [] =>
                    {| uploaded := false;
                       result := match receive queue with
                                 | Some e => Err e
                                 | None => Err ErrNoCoverage
                                 end |}
                | inr files => analyze_and_upload ParseFloat t env queue files
                end
          end
      end
  end.

End Current.

Module Legacy.

(** [TestCoverage.run] of pre-commit-go.go, from the merge on: with
    [TRAVIS_JOB_ID] set the profile goes to goveralls and no coverage is
    computed; without it [go tool cover -func] is read and the minimum
    applied. *)
Definition upload_or_analyze (ParseFloat : string -> option float)
    (t : TestCoverage) (env : coverage_env) (queue : list error)
    (files : list (error + list string)) : report :=
  match merge files with
  | Err e => {| uploaded := false; result := Err e |}
  | Panic => {| uploaded := false; result := Panic |}
  | Ok counts =>
      match Create env with
      | Some e => {| uploaded := false; result := Err e |}
      | None =>
          let profile := emit counts in
          if ci env
          then
            let '(_, _, err) := capture (goveralls env profile) in
            {| uploaded := true;
               result := returning match err with
                                   | None => receive queue
                                   | Some _ => err
                                   end |}
          else
            let '(out, _, err) := capture (cover_func env profile) in
            match analyze ParseFloat Panic out with
            | Err e => {| uploaded := false; result := Err e |}
            | Panic => {| uploaded := false; result := Panic |}
            | Ok st =>
                let err := threshold (MinimumCoverage t) st err in
                {| uploaded := false;
                   result := returning match err with
                                       | None => receive queue
                                       | Some _ => err
                                       end |}
            end
      end
  end.

Definition TestCoverage_run (ParseFloat : string -> option float)
    (t : TestCoverage) (env : coverage_env) : report :=
  match relToGOPATH_pkgRoot env with
  | inl e => {| uploaded := false; result := Err e |}
  | inr pkg =>
      match testDirs env with
      | [] => {| uploaded := false; result := Ok tt |}
      | _ :: _ =>
          match TempDir env with
          | inl e => {| uploaded := false; result := Err e |}
          | inr tmpDir =>
              let queue := fan_out env pkg tmpDir in
              match Glob env with
              | inl e => {| uploaded := false; result := Err e |}
              | inr [] =>
                  {| uploaded := false;
                     result := match receive queue with
                               | Some e => Err e
                               | None => Err ErrNoCoverage
                               end |}
              | inr files => upload_or_analyze ParseFloat t env queue files
              end
          end
      end
  end.

End Legacy.

(** *** The order of the causes of failure, and example runs *)

(** The first cause that is present, in the order of the list. *)
Definition first_present (causes : list (option error)) : option error :=
  head (omap id causes).

(** [strconv.ParseFloat] on the plain decimals [go tool cover] prints, digits
    with an optional fraction: the digits are accumulated exactly and divided
    by the power of ten of the fraction. Other spellings of numbers do not
    occur in the example runs and are rejected here. *)
Definition float_digit (c : ascii) : option float :=
  match Strconv.digit c with
  | Some 0 => Some 0%float | Some 1 => Some 1%float | Some 2 => Some 2%float
  | Some 3 => Some 3%float | Some 4 => Some 4%float | Some 5 => Some 5%float
  | Some 6 => Some 6%float | Some 7 => Some 7%float | Some 8 => Some 8%float
  | Some 9 => Some 9%float
  | _ => None
  end.

Fixpoint decimal_digits (s : string) (acc scale : float) (fraction : bool)
  : option float :=
  match s with
  | EmptyString => Some (PrimFloat.div acc scale)
  | String c s' =>
      if Ascii.eqb c "." then
        if fraction then None
        else match s' with
             | EmptyString => None
             | _ => decimal_digits s' acc scale true
             end
      else
        match float_digit c with
        | Some d =>
            decimal_digits s' (PrimFloat.add (PrimFloat.mul acc 10) d)
              (if fraction then PrimFloat.mul scale 10 else scale) fraction
        | None => None
        end
  end.

Definition parse_decimal (s : string) : option float :=
  match s with
  | EmptyString => None
  | String c _ => if Ascii.eqb c "." then None else decimal_digits s 0 1 false
  end.

Definition exits (code : Z) (out : string) : process :=
  {| CombinedOutput := out; CombinedOutput_err := None; ExitStatus := Some code |}.

Definition cannot_start : process :=
  {| CombinedOutput := "";
     CombinedOutput_err := Some (ErrOS "exec: go: executable file not found in $PATH");
     ExitStatus := None |}.

(** The output of [go tool cover -func] for two functions and a total of
    19.9 percent. *)
Definition cover_19_9 : string :=
  "a.go:1:" +:+ tab +:+ "f" +:+ tab +:+ "100.0%" +:+ newline +:+
  "b.go:2:" +:+ tab +:+ "g" +:+ tab +:+ "50.0%" +:+ newline +:+
  "total:" +:+ tab +:+ "(statements)" +:+ tab +:+ "19.9%" +:+ newline.

(** The same with a total of 85.7 percent. *)
Definition cover_85_7 : string :=
  "a.go:1:" +:+ tab +:+ "f" +:+ tab +:+ "100.0%" +:+ newline +:+
  "b.go:2:" +:+ tab +:+ "g" +:+ tab +:+ "50.0%" +:+ newline +:+
  "total:" +:+ tab +:+ "(statements)" +:+ tab +:+ "85.7%" +:+ newline.

(** The same with a total that is not a number. *)
Definition cover_garbled : string :=
  "a.go:1:" +:+ tab +:+ "f" +:+ tab +:+ "100.0%" +:+ newline +:+
  "total:" +:+ tab +:+ "(statements)" +:+ tab +:+ "n/a%" +:+ newline.

(** 19.9 and 85.7 as [float64]. *)
Definition percent_19_9 : float := 0x1.3e66666666666p+4.
Definition percent_85_7 : float := 0x1.56ccccccccccdp+6.

(** A run over one test directory; the value of [TRAVIS_JOB_ID], the runs of
    [go test], [go tool cover] and goveralls and the profile files found are
    left open. *)
Definition example_env (travis : string) (test cover upload : process)
    (create : option error) (profiles : list (error + list string)) : coverage_env := {|
  relToGOPATH_pkgRoot := inr "github.com/maruel/pre-commit-go";
  testDirs := ["/go/src/github.com/maruel/pre-commit-go/checks"];
  TempDir := inr "/tmp/pre-commit-go042";
  go_test := fun _ => test;
  arrival := [0%nat];
  Glob := inr profiles;
  Create := create;
  cover_func := fun _ => cover;
  TRAVIS_JOB_ID := travis;
  goveralls := fun _ => upload;
  RemoveAll := None
|}.


Definition low_coverage_and_failed_test : coverage_env :=
  example_env "" (exits 1 "FAIL") (exits 0 cover_19_9) (exits 0 "") None [file_of P2].

Definition bad_profile_and_failed_test : coverage_env :=
  example_env "" (exits 1 "FAIL") (exits 0 cover_19_9) (exits 0 "") None
    [inr ["mode: count"; bad_count_line]].

Definition no_profile_written : coverage_env :=
  example_env "" (exits 1 "FAIL") (exits 0 cover_19_9) (exits 0 "")
    (Some (ErrOS "open /tmp/pre-commit-go042/profile.cov: no space left on device"))
    [file_of P2].

Definition garbled_summary : coverage_env :=
  example_env "" (exits 1 "FAIL") (exits 0 cover_garbled) (exits 0 "") None [file_of P2].

Definition summarizer_missing : coverage_env :=
  example_env "" (exits 1 "FAIL") cannot_start (exits 0 "") None [file_of P2].

Definition failed_test_and_upload_on_ci : coverage_env :=
  example_env "4711" (exits 1 "FAIL") (exits 0 cover_85_7) cannot_start None [file_of P2].


(** The coverage check as [resetDefault] leaves it: a minimum of 20 percent. *)
Definition default_coverage : TestCoverage := Config_TestCoverage defaultConfig.

(** The queued failure of the only test directory in the example runs. *)
Definition test_failed : error :=
  ErrTestFailed "github.com/maruel/pre-commit-go" "/tmp/pre-commit-go042" 0
    "/go/src/github.com/maruel/pre-commit-go/checks" "FAIL".

(** ** The scheduler [run] *)

(** [time.Second] in nanoseconds. *)
Definition Second : Z := 1000000000.

(** What one task observes of its check in one run: the value [check.Run()]
    returned and the [duration] measured around the call, in nanoseconds. *)
Record observation : Type := {
  returned : option error;
  duration : Z
}.

(** [max := check.GetMaxDuration(); if max == 0 { max = config.MaxDuration }]. *)
Definition effective_max (config : Config) (c : check) : Z :=
  let max := GetMaxDuration c in
  if max =? 0 then Config_MaxDuration config else max.

(** [time.Duration(max) * time.Second], an [int64] product. *)
Definition budget (config : Config) (c : check) : Z :=
  GoInt.mul (effective_max config c) Second.

(** The sends on [errs] that the body of one task performs, in program
    order: the error of the check if there is one, then the budget error if
    [duration > time.Duration(max)*time.Second]. *)
Definition task (config : Config) (c : check) (o : observation) : list error :=
  match returned o with
  | Some err => [err]
  | None => []
  end ++
  if budget config c <? duration o
  then [ErrCheckTook (GetName c) (duration o)]
  else [].

(** The tasks between their start and [wg.Wait()]: for every task the sends
    it has not performed yet, and the buffer of the channel [errs], oldest
    element first. Nothing receives from [errs] before [wg.Wait()] returns. *)
Record sched_state : Type := {
  pending : list (list error);
  errs : list error
}.

(** Task [i] is at a send [errs <- e] and the buffer has room. *)
Inductive step (cap : nat) : sched_state -> sched_state -> Prop :=
| step_send st i e rest :
    pending st !! i = Some (e :: rest) ->
    (length (errs st) < cap)%nat ->
    step cap st {| pending := <[i := rest]> (pending st); errs := errs st ++ [e] |}.

(** Task [i] is at a send and the buffer is full: the send blocks. *)
Definition blocked (cap : nat) (st : sched_state) (i : nat) : Prop :=
  ∃ e rest, pending st !! i = Some (e :: rest) ∧ (cap <= length (errs st))%nat.

(** Every task has run to its end, so [wg.Wait()] returns. *)
Definition finished (st : sched_state) : bool :=
  forallb (fun p => match p with [] => true | _ => false end) (pending st).

(** The scheduler of the Go runtime picks task [i] next: the task performs
    its next send if it has one and the buffer has room, and stays where it
    is otherwise. *)
Definition advance (cap : nat) (st : sched_state) (i : nat) : sched_state :=
  match pending st !! i with
  | Some (e :: rest) =>
      if (length (errs st) <? cap)%nat
      then {| pending := <[i := rest]> (pending st); errs := errs st ++ [e] |}
      else st
  | _ => st
  end.

Definition execute (cap : nat) (picks : list nat) (st : sched_state) : sched_state :=
  fold_left (advance cap) picks st.

(** The final loop of [run]: receive without blocking until the channel is
    empty, print every error received, keep the last one in [err]; at the
    end return "checks failed in ..." if [err] is set and [nil] otherwise.
    The result is the list of errors printed and the value returned. *)
Fixpoint drain (total : Z) (buffer : list error) (err : option error)
  : list error * option error :=
  match buffer with
  | e :: rest =>
      let '(printed, r) := drain total rest (Some e) in (e :: printed, r)
  | [] =>
      ([], match err with
           | Some _ => Some (ErrChecksFailed total)
           | None => None
           end)
  end.

Inductive run_outcome : Type :=
| Returns (printed : list error) (err : option error)
| Waiting.  (* [wg.Wait()] has not returned *)

Definition start (config : Config) (enabledChecks : list check)
    (obs : nat -> observation) : sched_state :=
  {| pending := imap (fun i c => task config c (obs i)) enabledChecks;
     errs := [] |}.

(** [run(name, runLevel)] for the configuration [config] that [getConfig]
    loads, under the interleaving [picks] of the tasks; [obs i] is what the
    task of the [i]-th enabled check observes and [total] the duration of
    the whole run. *)
Definition run (config : Config) (runLevel : Z) (obs : nat -> observation)
    (total : Z) (picks : list nat) : run_outcome :=
  let enabledChecks := EnabledChecks config runLevel in
  let st := execute (length enabledChecks) picks (start config enabledChecks obs) in
  if finished st
  then let '(printed, r) := drain total (errs st) None in Returns printed r
  else Waiting.

(** The interleaving in which the tasks run one after the other. *)
Definition one_by_one (tasks : list (list error)) : list nat :=
  mjoin (imap (fun i sends => replicate (length sends) i) tasks).

(** All sends of a state: those already in the buffer, then those still to
    be performed. *)
Definition all_sends (st : sched_state) : list error := errs st ++ mjoin (pending st).

(** A configuration file that sets gofmt's run level to 0. *)
Definition gofmt_level0 : Config := {|
  Config_MaxDuration := Config_MaxDuration defaultConfig;
  Config_BuildOnly := Config_BuildOnly defaultConfig;
  Config_Gofmt := {| Gofmt_Common := {| RunLevel := 0; MaxDuration := 0 |} |};
  Config_Test := Config_Test defaultConfig;
  Config_Errcheck := Config_Errcheck defaultConfig;
  Config_Goimports := Config_Goimports defaultConfig;
  Config_Golint := Config_Golint defaultConfig;
  Config_Govet := Config_Govet defaultConfig;
  Config_TestCoverage := Config_TestCoverage defaultConfig;
  Config_CustomChecks := []
|}.

(** *** Three runs of the scheduler *)

(** A configuration file that puts gofmt at run level 0 with a budget of one
    second and leaves the other checks at their defaults: at run level 0
    gofmt is the only enabled check. *)
Definition gofmt_only : Config := {|
  Config_MaxDuration := Config_MaxDuration defaultConfig;
  Config_BuildOnly := Config_BuildOnly defaultConfig;
  Config_Gofmt := {| Gofmt_Common := {| RunLevel := 0; MaxDuration := 1 |} |};
  Config_Test := Config_Test defaultConfig;
  Config_Errcheck := Config_Errcheck defaultConfig;
  Config_Goimports := Config_Goimports defaultConfig;
  Config_Golint := Config_Golint defaultConfig;
  Config_Govet := Config_Govet defaultConfig;
  Config_TestCoverage := Config_TestCoverage defaultConfig;
  Config_CustomChecks := []
|}.

(** The check reports a file and takes two seconds. *)
Definition slow_and_failing (i : nat) : observation :=
  {| returned := Some (ErrImproperlyFormatted "gofmt" "main.go");
     duration := 2 * Second |}.

(** The check finds nothing and takes two seconds. *)
Definition slow_but_clean (i : nat) : observation :=
  {| returned := None; duration := 2 * Second |}.

(** The check finds nothing and takes half a second. *)
Definition quick_and_clean (i : nat) : observation :=
  {| returned := None; duration := 500000000 |}.

(** ** The checks that run commands ([BuildOnly], [Errcheck], [Test], [CustomCheck]) *)

(** The errors of these checks are built by [fmt.Errorf], which is
    [errors.New] of the formatted message: they are [ErrNew] of that
    message, and [ErrToolFailed] where the message ends in another error. *)

(** A run that leaves [capture] with an empty output and no error. *)
Definition quiet (p : process) : bool :=
  let '(out, _, err) := capture p in
  (String.length out =? 0)%nat && match err with None => true | Some _ => false end.

(** The loop of [BuildOnly.run] over [b.ExtraArgs]: [index] counts the builds
    already done and [go_build index] is the run of the next one. The loop
    returns at the first build that prints something or cannot be run. *)
Fixpoint BuildOnly_loop (go_build : nat -> process) (index : nat)
    (extraArgs : list (list string)) : option error :=
  match extraArgs with
  | [] => None
  | extraarg :: rest =>
      let args := ["go"; "build"] ++ extraarg ++ ["./..."] in
      let '(out, _, err) := capture (go_build index) in
      if negb (String.length out =? 0)%nat
      then Some (ErrNew (GoStrings.Join args " " +:+ " failed: " +:+ out))
      else match err with
           | Some e => Some (ErrToolFailed (GoStrings.Join args " ") e)
           | None => BuildOnly_loop go_build (S index) rest
           end
  end.

Definition BuildOnly_run (b : BuildOnly) (go_build : nat -> process) : option error :=
  if (length (BuildOnly_ExtraArgs b) =? 0)%nat
  then Some (ErrNew "ExtraArgs must be at least a list of one empty list")
  else BuildOnly_loop go_build 0 (BuildOnly_ExtraArgs b).

(** The loop of [Errcheck.run] over [goDirs(false)]: every directory is made
    relative to GOPATH and appended to [args]; the first error of
    [relToGOPATH] is returned. *)
Fixpoint rel_dirs (relToGOPATH : string -> error + string) (dirs : list string)
  : error + list string :=
  match dirs with
  | [] => inr []
  | d :: rest =>
      match relToGOPATH d with
      | inl err => inl err
      | inr rel =>
          match rel_dirs relToGOPATH rest with
          | inl err => inl err
          | inr rels => inr (rel :: rels)
          end
      end
  end.

(** [Errcheck.run]; [errcheck args] is the run of the command line [args]. *)
Definition Errcheck_run (e : Errcheck) (relToGOPATH : string -> error + string)
    (dirs : list string) (errcheck : list string -> process) : option error :=
  match rel_dirs relToGOPATH dirs with
  | inl err => Some err
  | inr rels =>
      let args := ["errcheck"; "-ignore"; Ignores e] ++ rels in
      let '(out, _, err) := capture (errcheck args) in
      if negb (String.length out =? 0)%nat
      then Some (ErrNew (GoStrings.Join args " " +:+ " failed:" +:+ newline +:+ out))
      else match err with
           | Some e' => Some (ErrToolFailed (GoStrings.Join args " ") e')
           | None => None
           end
  end.

(** What [fmt] writes for the verb [%d] on a string operand. *)
Definition bad_verb_d (s : string) : string := "%!d(string=" +:+ s +:+ ")".

(** [CustomCheck.run]; [p] is the run of [c.Command]. [captureWd] takes
    [args[0]] as the executable, which panics on an empty command line. *)
Definition CustomCheck_run (c : CustomCheck) (p : process) : outcome error unit :=
  match Command c with
  | [] => Panic
  | _ :: _ =>
      let '(out, exitCode, err) := capture p in
      if negb (exitCode =? 0) && CheckExitCode c
      then Err (ErrNew (bad_verb_d (GoStrings.Join (Command c) " ")
                          +:+ " failed:" +:+ newline +:+ out))
      else returning err
  end.

(** The body of one task of [Test.run]: the errors it sends on [errs], none
    or one. [p] is the run of [go test] in the directory. *)
Definition Test_task (relToGOPATH : string -> error + string) (p : process)
    (extraarg : list string) (testDir : string) : list error :=
  match relToGOPATH testDir with
  | inl err => [err]
  | inr rel =>
      let args := ["go"; "test"] ++ extraarg ++ [rel] in
      let '(out, exitCode, _) := capture p in
      if negb (exitCode =? 0)
      then [ErrNew (GoStrings.Join args " " +:+ " failed:" +:+ newline +:+ out)]
      else []
  end.

(** The tasks of one round of [Test.run], one per test directory. *)
Definition Test_tasks (relToGOPATH : string -> error + string) (go_test : nat -> process)
    (extraarg : list string) (testDirs : list string) : list (list error) :=
  imap (fun i testDir => Test_task relToGOPATH (go_test i) extraarg testDir) testDirs.

(** The loop of [Test.run] over [t.ExtraArgs]. Every round makes a channel
    with one slot per test directory, starts one task per directory and
    waits for them; [picks round] is the interleaving of the tasks of that
    round and [go_test round i] the run of [go test] in the [i]-th directory.
    After [wg.Wait()] the oldest error in the channel, if there is one, is
    returned. [None]: [wg.Wait()] has not returned. *)
Fixpoint Test_rounds (relToGOPATH : string -> error + string)
    (go_test : nat -> nat -> process) (testDirs : list string) (picks : nat -> list nat)
    (round : nat) (extraArgs : list (list string)) : option (option error) :=
  match extraArgs with
  | [] => Some None
  | extraarg :: rest =>
      let st := execute (length testDirs) (picks round)
                  {| pending := Test_tasks relToGOPATH (go_test round) extraarg testDirs;
                     errs := [] |} in
      if finished st
      then match receive (errs st) with
           | Some err => Some (Some err)
           | None => Test_rounds relToGOPATH go_test testDirs picks (S round) rest
           end
      else None
  end.

Definition Test_run (t : Test) (relToGOPATH : string -> error + string)
    (go_test : nat -> nat -> process) (testDirs : list string) (picks : nat -> list nat)
  : option (option error) :=
  if (length (Test_ExtraArgs t) =? 0)%nat
  then Some (Some (ErrNew "ExtraArgs must be at least a list of one empty list"))
  else Test_rounds relToGOPATH go_test testDirs picks 0 (Test_ExtraArgs t).

(** The interleaving of [Test.run] in which the tasks of every round end one
    after the other, in the order of the test directories. *)
Definition Test_one_by_one (relToGOPATH : string -> error + string)
    (go_test : nat -> nat -> process) (testDirs : list string)
    (extraArgs : list (list string)) (round : nat) : list nat :=
  one_by_one (Test_tasks relToGOPATH (go_test round) (default [] (extraArgs !! round)) testDirs).

(** ** Prerequisites, [help] and [installPrereq] *)

(** [GetPrerequisites] of every check; the coverage check asks for goveralls
    when [TRAVIS_JOB_ID] is set. *)
Definition GetPrerequisites (TRAVIS_JOB_ID : string) (c : check) : list CheckPrerequisite :=
  match c with
  | CheckBuildOnly _ | CheckGofmt _ | CheckTest _ => []
  | CheckErrcheck _ =>
      [ {| HelpCommand := ["errcheck"; "-h"]; ExpectedExitCode := 2;
           URL := "github.com/kisielk/errcheck" |} ]
  | CheckGoimports _ =>
      [ {| HelpCommand := ["goimports"; "-h"]; ExpectedExitCode := 2;
           URL := "golang.org/x/tools/cmd/goimports" |} ]
  | CheckGolint _ =>
      [ {| HelpCommand := ["golint"; "-h"]; ExpectedExitCode := 2;
           URL := "github.com/golang/lint/golint" |} ]
  | CheckGovet _ =>
      [ {| HelpCommand := ["go"; "tool"; "vet"; "-h"]; ExpectedExitCode := 1;
           URL := "golang.org/x/tools/cmd/vet" |} ]
  | CheckTestCoverage _ =>
      [ {| HelpCommand := ["go"; "tool"; "cover"; "-h"]; ExpectedExitCode := 1;
           URL := "golang.org/x/tools/cmd/cover" |} ]
      ++ if negb (String.length TRAVIS_JOB_ID =? 0)%nat
         then [ {| HelpCommand := ["goveralls"; "-h"]; ExpectedExitCode := 2;
                   URL := "github.com/mattn/goveralls" |} ]
         else []
  | CheckCustom c => Prerequisites c
  end.

(** The value that [help] hands to its template, without the usage text:
    the width of the name column and the two lists of checks. *)
Record help_data : Type := {
  Max : nat;
  NativeChecks : list check;
  OtherChecks : list check
}.

(** The body of the loop of [help]. *)
Definition help_step (TRAVIS_JOB_ID : string) (s : help_data) (c : check) : help_data :=
  let v := String.length (GetName c) in
  let max := if (Max s <? v)%nat then v else Max s in
  if (length (GetPrerequisites TRAVIS_JOB_ID c) =? 0)%nat
  then {| Max := max; NativeChecks := NativeChecks s ++ [c]; OtherChecks := OtherChecks s |}
  else {| Max := max; NativeChecks := NativeChecks s; OtherChecks := OtherChecks s ++ [c] |}.

Definition help (TRAVIS_JOB_ID : string) (config : Config) : help_data :=
  fold_left (help_step TRAVIS_JOB_ID) (AllChecks config)
    {| Max := 0; NativeChecks := []; OtherChecks := [] |}.

(** [installPrereq] from the return of [wg.Wait()] on. [received] is what the
    channel [c] holds then, oldest first: the URLs sent by the tasks whose
    help command did not exit with the expected code. The loop empties the
    channel into the map [m], whose keys are then sorted. *)
Definition urls_of (received : list string) : list string :=
  merge_sort String.le (elements (list_to_set received : gset string)).

(** [go args] is the run of the command line [args]: [go get] first, and
    [go get -u] if that printed something or failed. *)
Definition installPrereq (received : list string) (go : list string -> process)
  : option error :=
  let urls := urls_of received in
  if negb (length urls =? 0)%nat
  then
    let first := capture (go (["go"; "get"] ++ urls)) in
    let '(out, _, err) := first in
    let '(out, _, err) :=
      if negb (String.length out =? 0)%nat || match err with Some _ => true | None => false end
      then capture (go (["go"; "get"; "-u"] ++ urls))
      else first in
    if negb (String.length out =? 0)%nat
    then Some (ErrNew ("prerequisites installation failed: " +:+ out))
    else match err with
         | Some e => Some (ErrToolFailed "prerequisites installation" e)
         | None => None
         end
  else None.

(** * Properties *)

Example rsplitn_ex1 : rsplitn "a.go:1.1,1.5 2 3" " " 2 = ["a.go:1.1,1.5 2"; "3"].
Proof. reflexivity. Qed.
Example rsplitn_ex2 : rsplitn "abc" " " 2 = ["abc"].
Proof. reflexivity. Qed.
Example rsplitn_ex3 : rsplitn "a b c d e" " " (-1) = ["a";"b";"c";"d";"e"].
Proof. reflexivity. Qed.
Example splitn_ex : GoStrings.SplitN "a,,b,c" "," 3 = ["a"; ""; "b,c"].
Proof. reflexivity. Qed.
Example splitn_ex2 : GoStrings.SplitN "a--b-c--" "--" (-1) = ["a"; "b-c"; ""].
Proof. reflexivity. Qed.
Example split_empty : GoStrings.Split "" "x" = [""].
Proof. reflexivity. Qed.
Example explode_ex : GoStrings.SplitN "abc" "" 2 = ["a"; "bc"].
Proof. reflexivity. Qed.
Example explode_ex2 : GoStrings.SplitN "abc" "" (-1) = ["a"; "b"; "c"].
Proof. reflexivity. Qed.
Example atoi1 : Strconv.Atoi "9223372036854775807" = inr GoInt.maxInt. Proof. reflexivity. Qed.
Example atoi2 : Strconv.Atoi "9223372036854775808" = inl Strconv.ErrRange. Proof. reflexivity. Qed.
Example atoi3 : Strconv.Atoi "-9223372036854775808" = inr GoInt.minInt. Proof. reflexivity. Qed.
Example atoi4 : Strconv.Atoi "+" = inl Strconv.ErrSyntax. Proof. reflexivity. Qed.
Example atoi5 : Strconv.Atoi "1x" = inl Strconv.ErrSyntax. Proof. reflexivity. Qed.
Example trim : GoStrings.TrimLeft "		ab	" "	" = "ab	". Proof. reflexivity. Qed.

(** ** Strings: [reverse], [SplitN] on a space, [rsplitn] *)

Section StringFacts.

Implicit Types (s a b acc : string) (c : ascii).

Lemma append_cons c a b : String c a +:+ b = String c (a +:+ b).
Proof. reflexivity. Qed.

Lemma append_nil_r s : s +:+ "" = s.
Proof. induction s as [|c s IH]; [done|]. by rewrite append_cons, IH. Qed.

Lemma append_assoc a b s : (a +:+ b) +:+ s = a +:+ b +:+ s.
Proof. induction a as [|c a IH]; [done|]. by rewrite !append_cons, IH. Qed.

Lemma reverse_loop_acc s acc : reverse_loop s acc = reverse s +:+ acc.
Proof.
  unfold reverse. revert acc. induction s as [|c s IH]; intros acc; [done|].
  simpl. rewrite IH, (IH (String c "")), append_assoc. done.
Qed.

Lemma reverse_cons c s : reverse (String c s) = reverse s +:+ String c "".
Proof. unfold reverse at 1. simpl. apply reverse_loop_acc. Qed.

Lemma reverse_app a b : reverse (a +:+ b) = reverse b +:+ reverse a.
Proof.
  induction a as [|c a IH].
  - by rewrite append_nil_r.
  - by rewrite append_cons, !reverse_cons, IH, append_assoc.
Qed.

Lemma reverse_involutive s : reverse (reverse s) = s.
Proof.
  induction s as [|c s IH]; [done|].
  by rewrite reverse_cons, reverse_app, IH.
Qed.

Lemma prefix_space c s : String.prefix " " (String c s) = Ascii.eqb c " ".
Proof.
  change (String.prefix " " (String c s))
    with (if ascii_dec " " c then String.prefix "" s else false).
  destruct (ascii_dec " " c) as [<-|Hne].
  - by destruct s.
  - symmetry. apply Ascii.eqb_neq. congruence.
Qed.

Lemma Contains_space_cons c s :
  GoStrings.Contains (String c s) " " = Ascii.eqb c " " || GoStrings.Contains s " ".
Proof.
  change (GoStrings.Contains (String c s) " ")
    with (String.prefix " " (String c s) || GoStrings.Contains s " ").
  by rewrite prefix_space.
Qed.

Lemma Contains_space_app a b :
  GoStrings.Contains (a +:+ b) " " = GoStrings.Contains a " " || GoStrings.Contains b " ".
Proof.
  induction a as [|c a IH]; [done|].
  change (String c a +:+ b) with (String c (a +:+ b)).
  by rewrite !Contains_space_cons, IH, orb_assoc.
Qed.

Lemma Contains_space_reverse s :
  GoStrings.Contains (reverse s) " " = GoStrings.Contains s " ".
Proof.
  induction s as [|c s IH]; [done|].
  rewrite reverse_cons, Contains_space_app, IH, !Contains_space_cons.
  change (GoStrings.Contains "" " ") with false.
  rewrite orb_false_r. apply orb_comm.
Qed.

(** With one piece left, [SplitN] takes the rest of the string whole. *)
Lemma scan_last sep s : GoStrings.scan sep s 0 (Some 1%nat) = [s].
Proof. induction s as [|c s IH]; [done|]. simpl. by rewrite IH. Qed.

Lemma scan_space_none s limit :
  GoStrings.Contains s " " = false → GoStrings.scan " " s 0 limit = [s].
Proof.
  induction s as [|c s IH]; [done|].
  rewrite Contains_space_cons. intros [Hc Hs]%orb_false_elim.
  cbn [GoStrings.scan]. by rewrite (IH Hs), prefix_space, Hc, andb_false_r.
Qed.

Lemma scan_space_first a b :
  GoStrings.Contains a " " = false →
  GoStrings.scan " " (a +:+ " " +:+ b) 0 (Some 2%nat) = [a; b].
Proof.
  induction a as [|c a IH].
  - intros _. change ("" +:+ " " +:+ b) with (String " " b).
    cbn [GoStrings.scan]. rewrite prefix_space. simpl. by rewrite scan_last.
  - rewrite Contains_space_cons. intros [Hc Hs]%orb_false_elim.
    change (String c a +:+ " " +:+ b) with (String c (a +:+ " " +:+ b)).
    cbn [GoStrings.scan]. by rewrite (IH Hs), prefix_space, Hc, andb_false_r.
Qed.

(** [rsplitn(s, " ", 2)] on a string with a space: the text before the last
    space and the text after it. *)
Lemma rsplitn_last_space a b :
  GoStrings.Contains b " " = false →
  rsplitn (a +:+ " " +:+ b) " " 2 = [a; b].
Proof.
  intros Hb. unfold rsplitn, GoStrings.SplitN.
  rewrite reverse_app, (reverse_app " " b), append_assoc.
  change (reverse " ") with " ".
  cbn [Z.eqb Z.ltb Z.compare Z.to_nat Pos.to_nat Pos.iter_op Nat.add].
  rewrite scan_space_first by (by rewrite Contains_space_reverse).
  cbn. by rewrite !reverse_involutive.
Qed.

(** [rsplitn(s, " ", 2)] on a string without a space: the string alone. *)
Lemma rsplitn_no_space s :
  GoStrings.Contains s " " = false → rsplitn s " " 2 = [s].
Proof.
  intros Hs. unfold rsplitn, GoStrings.SplitN.
  cbn [Z.eqb Z.ltb Z.compare Z.to_nat Pos.to_nat Pos.iter_op Nat.add].
  rewrite scan_space_none by (by rewrite Contains_space_reverse).
  cbn. by rewrite reverse_involutive.
Qed.

(** The first loop of [rsplitn] after [k] rounds: the [k] items at either
    end have changed places and are reversed, the items between are as they
    were. *)
Lemma swap_rounds (items : list string) (k : nat) :
  (2 * k <= length items)%nat →
  length (fold_left swap_reversed (seq 0 k) items) = length items ∧
  ∀ idx, (idx < length items)%nat →
    fold_left swap_reversed (seq 0 k) items !! idx
    = if decide (idx < k ∨ length items - k <= idx)%nat
      then reverse <$> items !! (length items - 1 - idx)%nat
      else items !! idx.
Proof.
  induction k as [|k IH]; intros Hk.
  - split; [done|]. intros idx Hidx. simpl. case_decide; [lia|done].
  - destruct IH as [Hlen Hat]; [lia|].
    rewrite seq_S, fold_left_app. simpl.
    set (items_k := fold_left swap_reversed (seq 0 k) items) in *.
    set (j := (length items - k - 1)%nat).
    assert (items_k !! k = items !! k) as Hk_at.
    { rewrite Hat by lia. case_decide; [lia|done]. }
    assert (items_k !! j = items !! j) as Hj_at.
    { rewrite Hat by lia. case_decide; [lia|done]. }
    destruct (lookup_lt_is_Some_2 items k ltac:(lia)) as [a Ha].
    destruct (lookup_lt_is_Some_2 items j ltac:(lia)) as [b Hb].
    unfold swap_reversed. rewrite Hlen. fold j.
    rewrite Hk_at, Hj_at, Ha, Hb.
    split; [by rewrite !length_insert|].
    intros idx Hidx.
    destruct (decide (idx = j)) as [->|Hnj].
    + rewrite list_lookup_insert_eq by (rewrite length_insert; lia).
      case_decide; [|lia].
      replace (length items - 1 - j)%nat with k by lia. by rewrite Ha.
    + rewrite list_lookup_insert_ne by done.
      destruct (decide (idx = k)) as [->|Hnk].
      * rewrite list_lookup_insert_eq by lia.
        case_decide; [|lia].
        replace (length items - 1 - k)%nat with j by lia. by rewrite Hb.
      * rewrite list_lookup_insert_ne by done. rewrite Hat by done.
        repeat case_decide; try done; lia.
Qed.

(** [rsplitn] splits the reversed string and puts the pieces back in order,
    each one reversed again. *)
Lemma rsplitn_rev s sep (n : Z) :
  rsplitn s sep n = rev (reverse <$> GoStrings.SplitN (reverse s) sep n).
Proof.
  unfold rsplitn. set (items := GoStrings.SplitN (reverse s) sep n).
  pose proof (Nat.div_mod_eq (length items) 2) as Hdiv.
  pose proof (Nat.mod_upper_bound (length items) 2 ltac:(done)) as Hmod.
  destruct (swap_rounds items (length items / 2) ltac:(lia)) as [Hlen Hat].
  set (swapped := fold_left swap_reversed (seq 0 (length items / 2)) items) in *.
  assert (∀ idx, (idx < length items)%nat →
            rev (reverse <$> items) !! idx
            = reverse <$> items !! (length items - 1 - idx)%nat) as Hrev.
  { intros idx Hidx.
    pose proof (reverse_lookup (reverse <$> items) idx) as Hl.
    unfold list.reverse in Hl. rewrite rev_alt, Hl by (by rewrite length_fmap).
    rewrite list_lookup_fmap, length_fmap. do 2 f_equal. lia. }
  apply list_eq. intros idx.
  destruct (decide (idx < length items)%nat) as [Hidx|Hidx].
  2:{ rewrite (lookup_ge_None_2 (rev _)) by (rewrite length_rev, length_fmap; lia).
      apply lookup_ge_None_2.
      destruct (Nat.odd _); [|lia].
      destruct (swapped !! _); [rewrite length_insert|]; lia. }
  rewrite Hrev by done.
  destruct (Nat.odd (length items)) eqn:Hodd.
  - assert (length items mod 2 = 1)%nat as Hm.
    { rewrite <- Nat.bit0_mod, Nat.bit0_odd, Hodd. done. }
    destruct (lookup_lt_is_Some_2 swapped (length items / 2) ltac:(lia)) as [m Hmid].
    rewrite Hmid.
    destruct (decide (idx = length items / 2)%nat) as [->|Hne].
    + rewrite list_lookup_insert_eq by lia.
      rewrite Hat in Hmid by lia. case_decide; [lia|].
      replace (length items - 1 - length items / 2)%nat with (length items / 2)%nat by lia.
      by rewrite Hmid.
    + rewrite list_lookup_insert_ne by done. rewrite Hat by done.
      case_decide; [done|lia].
  - assert (length items mod 2 = 0)%nat as Hm.
    { destruct (length items mod 2)%nat as [|[|r]] eqn:Hr; [done| |lia].
      rewrite <- Nat.bit0_mod, Nat.bit0_odd, Hodd in Hr. done. }
    rewrite Hat by done. case_decide; [done|lia].
Qed.

End StringFacts.

(** ** The merge of the coverage profiles *)

Section Merge.

Implicit Types (counts m : gmap string Z) (K key : string) (n : Z).

Lemma in_range_zero : GoInt.in_range 0.
Proof. by compute. Qed.

Lemma wrap_in_range x : GoInt.in_range x → GoInt.wrap x = x.
Proof.
  unfold GoInt.in_range, GoInt.minInt, GoInt.maxInt, GoInt.wrap. intros H.
  rewrite Z.mod_small; lia.
Qed.

Lemma wrap_range x : GoInt.in_range (GoInt.wrap x).
Proof.
  unfold GoInt.in_range, GoInt.minInt, GoInt.maxInt, GoInt.wrap.
  pose proof (Z.mod_pos_bound (x + 2 ^ 63) (2 ^ 64)). lia.
Qed.

Lemma wrap_add_l a b : GoInt.wrap (GoInt.wrap a + b) = GoInt.wrap (a + b).
Proof.
  unfold GoInt.wrap. f_equal.
  replace ((a + 2 ^ 63) mod 2 ^ 64 - 2 ^ 63 + b + 2 ^ 63)
    with ((a + 2 ^ 63) mod 2 ^ 64 + b) by lia.
  rewrite Zplus_mod_idemp_l. f_equal. lia.
Qed.

Lemma add_add a x y : GoInt.add (GoInt.add a x) y = GoInt.wrap (a + x + y).
Proof. unfold GoInt.add. apply wrap_add_l. Qed.

(** Two additions to the map commute. *)
Lemma add_count_comm counts k1 n1 k2 n2 :
  add_count (add_count counts k1 n1) k2 n2 = add_count (add_count counts k2 n2) k1 n1.
Proof.
  unfold add_count. destruct (decide (k1 = k2)) as [->|Hne].
  - rewrite !lookup_insert_eq, !insert_insert_eq. simpl.
    rewrite !add_add. do 2 f_equal. lia.
  - rewrite (lookup_insert_ne _ k1 k2), (lookup_insert_ne _ k2 k1) by done.
    by apply insert_insert_ne.
Qed.

Lemma add_entry_comm counts e1 e2 :
  add_entry (add_entry counts e1) e2 = add_entry (add_entry counts e2) e1.
Proof. apply add_count_comm. Qed.

Lemma foldl_add_entry_perm (es es' : list (string * Z)) :
  es ≡ₚ es' → ∀ counts, foldl add_entry counts es = foldl add_entry counts es'.
Proof.
  induction 1 as [|e es es' _ IH|e1 e2 es|es1 es2 es3 _ IH1 _ IH2]; intros counts; simpl.
  - done.
  - apply IH.
  - by rewrite add_entry_comm.
  - by rewrite IH1, IH2.
Qed.

(** A line is merged exactly when it can be read. *)
Lemma merge_line_read counts line :
  to_option (merge_line counts line) = add_entry counts <$> to_option (read_line line).
Proof. unfold merge_line. by destruct (read_line line) as [[key n]| |]. Qed.

Lemma merge_lines_entries counts (lines : list string) :
  to_option (merge_lines counts lines)
  = foldl add_entry counts <$> mapM (fun line => to_option (read_line line)) lines.
Proof.
  revert counts. induction lines as [|line lines IH]; intros counts; [done|].
  simpl. pose proof (merge_line_read counts line) as Hl.
  destruct (merge_line counts line) as [m| |], (read_line line) as [kc| |];
    simplify_eq/=; try done.
  rewrite IH. by destruct (mapM _ lines).
Qed.

Lemma merge_file_entries counts (file : error + list string) :
  to_option (merge_file counts file) = foldl add_entry counts <$> file_entries file.
Proof. destruct file as [err|lines]; [done|]. apply merge_lines_entries. Qed.

Lemma merge_files_entries counts (files : list (error + list string)) :
  to_option (merge_files counts files)
  = foldl add_entry counts <$> (mjoin <$> mapM file_entries files).
Proof.
  revert counts. induction files as [|file files IH]; intros counts; [done|].
  simpl. pose proof (merge_file_entries counts file) as Hf.
  destruct (merge_file counts file) as [m| |], (file_entries file) as [es|];
    simplify_eq/=; try done.
  rewrite IH. destruct (mapM file_entries files) as [ess|]; [|done].
  simpl. by rewrite foldl_app.
Qed.

Lemma mapM_file_entries_perm (files files' : list (error + list string)) :
  files ≡ₚ files' →
  match mapM file_entries files, mapM file_entries files' with
  | Some ess, Some ess' => mjoin ess ≡ₚ mjoin ess'
  | None, None => True
  | _, _ => False
  end.
Proof.
  induction 1 as [|f fs fs' _ IH|f1 f2 fs|fs1 fs2 fs3 _ IH1 _ IH2]; simpl.
  - done.
  - destruct (file_entries f) as [es|]; simpl; [|done].
    destruct (mapM file_entries fs), (mapM file_entries fs'); simpl; try done.
    by rewrite IH.
  - destruct (file_entries f1) as [es1|], (file_entries f2) as [es2|],
      (mapM file_entries fs); simpl; try done.
    rewrite !app_assoc. by rewrite (Permutation_app_comm es2 es1).
  - destruct (mapM file_entries fs1), (mapM file_entries fs2),
      (mapM file_entries fs3); try done. by rewrite IH1.
Qed.

Lemma merged_entries (files : list (error + list string)) :
  merged files = foldl add_entry ∅ <$> (mjoin <$> mapM file_entries files).
Proof.
  unfold merged, merge. rewrite <- merge_files_entries.
  by destruct (merge_files ∅ files).
Qed.

Lemma read_line_entry (e : entry) :
  countable e → read_line (line_of e) = Ok (pair_of e).
Proof.
  intros [Hsp [n Hn]]. unfold read_line, line_of, pair_of, count_of.
  rewrite rsplitn_last_space by done. simpl. by rewrite Hn.
Qed.

Lemma file_entries_profile (p : profile) :
  Forall countable (entries p) → file_entries (file_of p) = Some (pair_of <$> entries p).
Proof.
  intros Hes. unfold file_of, file_entries. simpl.
  apply mapM_Some_2, Forall2_fmap, Forall_Forall2_diag.
  eapply Forall_impl; [exact Hes|].
  intros e He. simpl. by rewrite (read_line_entry e He).
Qed.

Lemma mapM_file_entries_profiles (ps : list profile) :
  Forall (fun p => Forall countable (entries p)) ps →
  mapM file_entries (file_of <$> ps) = Some ((fun p => pair_of <$> entries p) <$> ps).
Proof.
  intros Hps. apply mapM_Some_2, Forall2_fmap, Forall_Forall2_diag.
  eapply Forall_impl; [exact Hps|].
  intros p Hp. simpl. by apply file_entries_profile.
Qed.

Lemma digits_nonneg (s : string) (acc : Z) n :
  Strconv.digits s acc = Some n → 0 <= acc → 0 <= n.
Proof.
  revert acc. induction s as [|c s IH]; intros acc; simpl.
  - by intros [= <-].
  - unfold Strconv.digit.
    destruct (_ && _) eqn:Hd; [|done].
    apply andb_true_iff in Hd as [Hlo%Z.leb_le Hhi%Z.leb_le].
    intros Hn Hacc. apply IH in Hn; lia.
Qed.

Lemma ParseInt_signed_in_range (neg : bool) (body : string) n :
  Strconv.ParseInt_signed neg body = inr n → GoInt.in_range n.
Proof.
  unfold Strconv.ParseInt_signed, Strconv.ParseUint.
  unfold GoInt.in_range, GoInt.minInt, GoInt.maxInt, GoInt.intSize.
  destruct body as [|c body]; [done|].
  destruct (Strconv.digits _ 0) as [un|] eqn:Hun; [|done].
  apply digits_nonneg in Hun; [|done].
  change (2 ^ (64 - 1)) with (2 ^ 63).
  destruct neg; simpl.
  - destruct (Z.ltb_spec (2 ^ 63) un); [done|]. intros [= <-]. lia.
  - destruct (Z.leb_spec (2 ^ 63) un); [done|]. intros [= <-]. lia.
Qed.

Lemma Atoi_in_range (s : string) n :
  Strconv.Atoi s = inr n → GoInt.in_range n.
Proof.
  unfold Strconv.Atoi. destruct s as [|c s]; [done|].
  destruct (Ascii.eqb c "+"); [apply ParseInt_signed_in_range|].
  destruct (Ascii.eqb c "-"); apply ParseInt_signed_in_range.
Qed.

Lemma count_of_in_range (e : entry) : GoInt.in_range (count_of e).
Proof.
  unfold count_of. destruct (Strconv.Atoi (field e)) eqn:H.
  - unfold GoInt.in_range, GoInt.minInt, GoInt.maxInt. lia.
  - by eapply Atoi_in_range.
Qed.

Lemma key_sum_absent K (es : list entry) :
  Forall (fun e => statement e ≠ K) es → key_sum K es = 0.
Proof.
  induction 1 as [|e es He _ IH]; [done|]. simpl. rewrite IH. by case_decide.
Qed.

(** The merged entry of [K] after a list of entries has been added. *)
Lemma lookup_add_entries K (es : list entry) counts :
  GoInt.in_range (default 0 (counts !! K)) →
  default 0 (foldl add_entry counts (pair_of <$> es) !! K)
  = GoInt.wrap (default 0 (counts !! K) + key_sum K es).
Proof.
  revert counts. induction es as [|e es IH]; intros counts Hr.
  - simpl. by rewrite Z.add_0_r, wrap_in_range.
  - simpl. rewrite IH.
    + unfold add_entry, add_count, pair_of. simpl. case_decide as HK.
      * subst K. rewrite lookup_insert_eq. simpl. unfold GoInt.add.
        rewrite wrap_add_l. f_equal. lia.
      * by rewrite lookup_insert_ne.
    + unfold add_entry, add_count, pair_of. simpl.
      destruct (decide (statement e = K)) as [<-|HK].
      * rewrite lookup_insert_eq. apply wrap_range.
      * by rewrite lookup_insert_ne.
Qed.

Lemma lookup_add_entries_is_Some K (es : list entry) counts :
  is_Some (foldl add_entry counts (pair_of <$> es) !! K)
  ↔ is_Some (counts !! K) ∨ Exists (fun e => statement e = K) es.
Proof.
  revert counts. induction es as [|e es IH]; intros counts.
  - simpl. rewrite Exists_nil. tauto.
  - simpl. rewrite IH, Exists_cons. unfold add_entry, add_count, pair_of. simpl.
    rewrite lookup_insert_is_Some. destruct (decide (statement e = K)); tauto.
Qed.

Lemma key_sum_app K (es1 es2 : list entry) :
  key_sum K (es1 ++ es2) = key_sum K es1 + key_sum K es2.
Proof. induction es1 as [|e es1 IH]; simpl; [done|]. rewrite IH. lia. Qed.

Lemma profiles_sum_entries K (ps : list profile) :
  profiles_sum K ps = key_sum K (mjoin (entries <$> ps)).
Proof.
  induction ps as [|p ps IH]; [done|].
  simpl. by rewrite key_sum_app, IH.
Qed.

Lemma appears_entries K (ps : list profile) :
  Exists (appears K) ps ↔ Exists (fun e => statement e = K) (mjoin (entries <$> ps)).
Proof.
  induction ps as [|p ps IH]; simpl.
  - by rewrite !Exists_nil.
  - rewrite Exists_cons, Exists_app, IH. unfold appears.
    rewrite (Exists_exists _ (entries p)). tauto.
Qed.

(** A statement key that appears in one profile only has that profile's sum. *)
Lemma profiles_sum_only K (ps : list profile) (i : nat) (p : profile) :
  ps !! i = Some p →
  (∀ j q, j ≠ i → ps !! j = Some q → ¬ appears K q) →
  profiles_sum K ps = profile_sum K p.
Proof.
  revert i. induction ps as [|q ps IH]; intros i Hi Hothers; [done|].
  assert (∀ (l : list profile), (∀ j r, l !! j = Some r → ¬ appears K r) →
            profiles_sum K l = 0) as Hnone.
  { clear. induction l as [|r l IHl]; intros Hl; [done|]. simpl.
    rewrite IHl by (intros j r' Hj; exact (Hl (S j) r' Hj)).
    unfold profile_sum. rewrite key_sum_absent; [done|].
    apply Forall_forall. intros e He HK. apply (Hl 0%nat r eq_refl). by exists e. }
  destruct i as [|i]; simplify_eq/=.
  - rewrite Hnone; [lia|]. intros j r Hj. by apply (Hothers (S j) r).
  - rewrite (IH i); [|done|].
    2:{ intros j r Hne Hj. apply (Hothers (S j) r); [lia|done]. }
    unfold profile_sum at 1. rewrite key_sum_absent; [done|].
    apply Forall_forall. intros e He HK.
    apply (Hothers 0%nat q); [lia|done|]. by exists e.
Qed.

End Merge.


(** Merging is a fold over the files: merging [fs1 ++ fs2] is merging [fs2]
    into the result of merging [fs1]. *)
Lemma merge_files_app (counts : gmap string Z) (fs1 fs2 : list (error + list string)) :
  merge_files counts (fs1 ++ fs2)
  = counts' ← merge_files counts fs1; merge_files counts' fs2.
Proof.
  revert counts. induction fs1 as [|f fs1 IH]; intros counts; [done|].
  simpl. destruct (merge_file counts f); simpl; [apply IH|done..].
Qed.

(** A line with a space splits at its last space. *)
Lemma split_last_space (line : string) :
  GoStrings.Contains line " " = true →
  ∃ a b, line = a +:+ " " +:+ b ∧ GoStrings.Contains b " " = false.
Proof.
  induction line as [|c s IH]; [done|].
  rewrite Contains_space_cons.
  destruct (GoStrings.Contains s " ") eqn:Hs.
  - intros _. destruct (IH eq_refl) as (a & b & -> & Hb).
    by exists (String c a), b.
  - rewrite orb_false_r. intros ->%Ascii.eqb_eq. by exists "", s.
Qed.

(** The example of the specification: the counts of the shared statement are
    added, the other statement is carried over. *)
Example merge_P1_P2 :
  merge [file_of P1; file_of P2]
  = Ok {[ "a.go:1.1,1.5 2" := 7; "b.go:2.1,2.5 1" := 1 ]}.
Proof. reflexivity. Qed.

(** A list of profiles whose lines can all be read merges, to the map built
    by adding their entries one by one. *)
Lemma merge_profiles (ps : list profile) :
  Forall (fun p => Forall countable (entries p)) ps →
  merge (file_of <$> ps) = Ok (foldl add_entry ∅ (pair_of <$> mjoin (entries <$> ps))).
Proof.
  intros Hps.
  pose proof (merged_entries (file_of <$> ps)) as Hm.
  rewrite (mapM_file_entries_profiles ps Hps) in Hm. simpl in Hm.
  unfold merged in Hm. destruct (merge (file_of <$> ps)) as [counts| |]; [|done..].
  injection Hm as ->. f_equal. f_equal.
  clear. induction ps as [|p ps IH]; [done|]. csimpl. by rewrite IH, fmap_app.
Qed.




(** A statement that appears in one profile only, with the count [count_of e]
    there, is carried over with that count. *)
Lemma merged_count_carried (ps : list profile) (counts : gmap string Z)
    (i : nat) (p : profile) (e : entry) :
  Forall (fun p => Forall countable (entries p)) ps →
  merge (file_of <$> ps) = Ok counts →
  ps !! i = Some p →
  (∀ j q, j ≠ i → ps !! j = Some q → ¬ appears (statement e) q) →
  e ∈ entries p →
  profile_sum (statement e) p = count_of e →
  counts !! statement e = Some (count_of e).
Proof.
  intros Hps Hm Hi Hothers He Hp.
  rewrite (merge_profiles ps Hps) in Hm. injection Hm as <-.
  pose proof (lookup_add_entries (statement e) (mjoin (entries <$> ps)) ∅) as Hsum.
  rewrite lookup_empty, <- profiles_sum_entries in Hsum.
  rewrite (profiles_sum_only _ ps i p Hi Hothers), Hp in Hsum.
  specialize (Hsum in_range_zero).
  change (default 0 None + count_of e) with (count_of e) in Hsum.
  rewrite (wrap_in_range _ (count_of_in_range e)) in Hsum.
  assert (is_Some (foldl add_entry ∅ (pair_of <$> mjoin (entries <$> ps)) !! statement e))
    as [n Hn].
  { apply lookup_add_entries_is_Some. right. apply appears_entries.
    apply Exists_exists. exists p. split; [by eapply list_elem_of_lookup_2|by exists e]. }
  rewrite Hn in Hsum |- *. simpl in Hsum. by subst.
Qed.

(** C4. The merged counts do not depend on the order in which the profile
    files are merged: two lists of files that are permutations of each other
    merge to the same map from statement keys to counts, and the merge of
    one fails exactly when the merge of the other does. *)
Theorem C4_merge_order (files files' : list (error + list string)) :
  files ≡ₚ files' → merged files = merged files'.
Proof.
  intros Hp. rewrite !merged_entries.
  pose proof (mapM_file_entries_perm files files' Hp) as Hes.
  destruct (mapM file_entries files) as [ess|],
    (mapM file_entries files') as [ess'|]; try done.
  simpl. f_equal. by apply foldl_add_entry_perm.
Qed.

(** The theorem at three example profiles merged in opposite orders. *)
Lemma C4_merge_order_witness :
  merged [file_of P1; file_of P2; file_of P_one]
  = merged [file_of P_one; file_of P2; file_of P1].
Proof.
  apply C4_merge_order.
  apply (Permutation_trans (perm_swap _ _ _)).
  apply (Permutation_trans (perm_skip _ (perm_swap _ _ _))).
  apply perm_swap.
Defined.

(** ** The merged profile is read back as it was written *)

Section RoundTrip.

Lemma digit_digit_char (d : Z) : 0 <= d <= 9 → Strconv.digit (digit_char d) = Some d.
Proof.
  intros Hd.
  assert (d = 0 ∨ d = 1 ∨ d = 2 ∨ d = 3 ∨ d = 4 ∨ d = 5 ∨ d = 6 ∨ d = 7 ∨ d = 8 ∨ d = 9)
    as Hcases by lia.
  repeat destruct Hcases as [->|Hcases]; try reflexivity. by subst.
Qed.

Lemma digit_char_not_space (d : Z) : 0 <= d <= 9 → Ascii.eqb (digit_char d) " " = false.
Proof.
  intros Hd.
  assert (d = 0 ∨ d = 1 ∨ d = 2 ∨ d = 3 ∨ d = 4 ∨ d = 5 ∨ d = 6 ∨ d = 7 ∨ d = 8 ∨ d = 9)
    as Hcases by lia.
  repeat destruct Hcases as [->|Hcases]; try reflexivity. by subst.
Qed.

Lemma utoa_acc (fuel : nat) (n : Z) (acc : string) :
  utoa fuel n acc = utoa fuel n "" +:+ acc.
Proof.
  revert n acc. induction fuel as [|fuel IH]; intros n acc; [done|].
  simpl. destruct (n <? 10); [done|].
  rewrite IH, (IH _ (String _ "")), append_assoc. done.
Qed.

Lemma digits_app (s1 s2 : string) (a : Z) :
  Strconv.digits (s1 +:+ s2) a = Strconv.digits s1 a ≫= Strconv.digits s2.
Proof.
  revert a. induction s1 as [|c s1 IH]; intros a; [done|].
  rewrite append_cons. simpl. destruct (Strconv.digit c); [apply IH|done].
Qed.

(** The digits written for [n] read back as [n], after whatever was read
    before them. *)
Lemma digits_utoa (fuel : nat) (n : Z) :
  0 <= n < 10 ^ (Z.of_nat fuel + 1) →
  ∃ k, 0 <= k ∧ ∀ a, Strconv.digits (utoa fuel n "") a = Some (a * 10 ^ k + n).
Proof.
  revert n. induction fuel as [|fuel IH]; intros n Hn.
  - exists 1. split; [lia|]. intros a. simpl.
    rewrite digit_digit_char by (pose proof (Z.mod_pos_bound n 10); lia).
    f_equal. change (10 ^ (0 + 1)) with 10 in Hn. rewrite Z.mod_small by lia. lia.
  - simpl. destruct (Z.ltb_spec n 10) as [Hlt|Hge].
    + exists 1. split; [lia|]. intros a. simpl.
      rewrite digit_digit_char by (pose proof (Z.mod_pos_bound n 10); lia).
      f_equal. rewrite Z.mod_small by lia. lia.
    + destruct (IH (n / 10)) as (k & Hk & Hdigits).
      { split; [apply Z.div_pos; lia|].
        apply Z.div_lt_upper_bound; [lia|].
        replace (Z.of_nat (S fuel) + 1) with (Z.succ (Z.of_nat fuel + 1)) in Hn by lia.
        rewrite Z.pow_succ_r in Hn by lia. lia. }
      exists (k + 1). split; [lia|]. intros a.
      rewrite utoa_acc, digits_app, Hdigits. simpl.
      rewrite digit_digit_char by (pose proof (Z.mod_pos_bound n 10); lia).
      f_equal. rewrite Z.pow_add_r, Z.pow_1_r by lia.
      pose proof (Z.div_mod n 10). lia.
Qed.

(** What [utoa] writes starts with a digit. *)
Lemma utoa_head (fuel : nat) (n : Z) (acc : string) :
  ∃ c rest d, utoa fuel n acc = String c rest ∧ Strconv.digit c = Some d.
Proof.
  revert n acc. induction fuel as [|fuel IH]; intros n acc.
  - eexists _, _, _. split; [done|].
    apply digit_digit_char. pose proof (Z.mod_pos_bound n 10). lia.
  - simpl. destruct (n <? 10); [|apply IH].
    eexists _, _, _. split; [done|].
    apply digit_digit_char. pose proof (Z.mod_pos_bound n 10). lia.
Qed.

Lemma utoa_no_space (fuel : nat) (n : Z) (acc : string) :
  GoStrings.Contains (utoa fuel n acc) " " = GoStrings.Contains acc " ".
Proof.
  revert n acc. induction fuel as [|fuel IH]; intros n acc.
  - simpl utoa. rewrite Contains_space_cons, digit_char_not_space; [done|].
    pose proof (Z.mod_pos_bound n 10). lia.
  - simpl utoa. destruct (n <? 10).
    + rewrite Contains_space_cons, digit_char_not_space; [done|].
      pose proof (Z.mod_pos_bound n 10). lia.
    + rewrite IH, Contains_space_cons, digit_char_not_space; [done|].
      pose proof (Z.mod_pos_bound n 10). lia.
Qed.

Lemma two_63_below_ten_20 : 2 ^ 63 < 10 ^ (Z.of_nat 19 + 1).
Proof. reflexivity. Qed.

(** [Atoi] reads back what [%d] writes. *)
Lemma Atoi_Itoa (n : Z) : GoInt.in_range n → Strconv.Atoi (Itoa n) = inr n.
Proof.
  unfold GoInt.in_range, GoInt.minInt, GoInt.maxInt. intros Hn.
  pose proof two_63_below_ten_20 as Hbig.
  unfold Itoa. destruct (Z.ltb_spec n 0) as [Hneg|Hpos].
  - change (Strconv.Atoi (String "-" (utoa 19 (- n) "")))
      with (Strconv.ParseInt_signed true (utoa 19 (- n) "")).
    unfold Strconv.ParseInt_signed, Strconv.ParseUint.
    destruct (utoa_head 19 (- n) "") as (c & rest & d & Hshape & _).
    destruct (digits_utoa 19 (- n)) as (k & _ & Hdigits); [lia|].
    rewrite Hshape, <- Hshape, Hdigits. simpl.
    change (2 ^ (GoInt.intSize - 1)) with (2 ^ 63).
    rewrite Z.mul_0_l, Z.add_0_l.
    destruct (Z.ltb_spec (2 ^ 63) (- n)); [lia|]. f_equal. lia.
  - destruct (utoa_head 19 n "") as (c & rest & d & Hshape & Hc).
    destruct (digits_utoa 19 n) as (k & _ & Hdigits); [lia|].
    assert (Strconv.Atoi (utoa 19 n "") = Strconv.ParseInt_signed false (utoa 19 n ""))
      as ->.
    { rewrite Hshape. unfold Strconv.Atoi.
      destruct (Ascii.eqb_spec c "+") as [->|_]; [done|].
      by destruct (Ascii.eqb_spec c "-") as [->|_]. }
    unfold Strconv.ParseInt_signed, Strconv.ParseUint.
    rewrite Hshape, <- Hshape, Hdigits. simpl.
    change (2 ^ (GoInt.intSize - 1)) with (2 ^ 63).
    rewrite Z.mul_0_l, Z.add_0_l.
    by destruct (Z.leb_spec (2 ^ 63) n); [lia|].
Qed.

Lemma Itoa_no_space (n : Z) : GoStrings.Contains (Itoa n) " " = false.
Proof.
  unfold Itoa. destruct (n <? 0).
  - by rewrite Contains_space_cons, utoa_no_space.
  - by rewrite utoa_no_space.
Qed.

End RoundTrip.

(** ** Reading one profile line *)

Lemma merge_line_last_space (counts : gmap string Z) (key field : string) :
  GoStrings.Contains field " " = false →
  merge_line counts (key +:+ " " +:+ field)
  = match Strconv.Atoi field with
    | inr count => Ok (add_count counts key count)
    | inl cause => Err (ErrAtoi field cause)
    end.
Proof.
  intros Hf. unfold merge_line, read_line.
  rewrite rsplitn_last_space by done. simpl.
  by destruct (Strconv.Atoi field).
Qed.

(** A line without a space makes the loop body index [items[1]] in a slice of
    length one. *)
Lemma merge_line_no_space (counts : gmap string Z) (line : string) :
  GoStrings.Contains line " " = false → merge_line counts line = Panic.
Proof.
  intros Hl. unfold merge_line, read_line. by rewrite rsplitn_no_space.
Qed.



(** The line of the witness stops the merge with a syntax error. *)
Example merge_bad_count :
  merge [inr ["mode: count"; "b.go:2.1,2.5 1 4"; bad_count_line; "c.go:3.1,3.5 1 0"]]
  = Err (ErrAtoi "many" Strconv.ErrSyntax).
Proof. reflexivity. Qed.


(** ** Run levels *)

Lemma EnabledChecks_spec (cfg : Config) (R : Z) (c : check) :
  c ∈ EnabledChecks cfg R ↔ c ∈ AllChecks cfg ∧ GetRunLevel c <= R.
Proof.
  unfold EnabledChecks. rewrite list_elem_of_filter. tauto.
Qed.

(** C8, evaluated on the code. [EnabledChecks] keeps a check exactly when
    its run level is at most the requested one, with no special case for 0:
    with gofmt configured at run level 0, gofmt is among the enabled checks
    at each of the run levels 0, 1, 2 and 3. *)
Theorem C8_runlevel_zero_is_enabled :
  GetRunLevel (CheckGofmt (Config_Gofmt gofmt_level0)) = 0 ∧
  GetName <$> EnabledChecks gofmt_level0 0 = ["gofmt"] ∧
  GetName <$> EnabledChecks gofmt_level0 1 = ["build"; "gofmt"; "test"] ∧
  GetName <$> EnabledChecks gofmt_level0 2 =
    ["build"; "gofmt"; "test"; "errcheck"; "goimports"; "testcoverage"] ∧
  GetName <$> EnabledChecks gofmt_level0 3 =
    ["build"; "gofmt"; "test"; "errcheck"; "goimports"; "golint"; "govet"; "testcoverage"].
Proof. repeat split. Qed.

(** ** The output-policy checks *)

Lemma scan_nonempty (sep s : string) (skip : nat) (limit : option nat) :
  GoStrings.scan sep s skip limit ≠ [].
Proof.
  revert skip limit. induction s as [|c s IH]; intros skip limit; [done|].
  simpl. destruct skip as [|k]; [|apply IH].
  destruct (_ && _); [done|].
  by destruct (GoStrings.scan sep s 0 limit).
Qed.

(** [strings.Split] with a non-empty separator returns at least one piece. *)
Lemma Split_newline_nonempty (out : string) : GoStrings.Split out newline ≠ [].
Proof. apply scan_nonempty. Qed.

(** The blacklist drops nothing: every line of the output is kept. *)
Lemma filter_lines_all (out : string) (blacklist : list string) :
  filter_lines out blacklist = GoStrings.Split out newline.
Proof.
  unfold filter_lines.
  assert (∀ lines acc,
            fold_left (fun result line =>
                         let 'tt := blacklist_loop line blacklist in result ++ [line])
              lines acc = acc ++ lines) as Hfold.
  { induction lines as [|line lines IH]; intros acc; simpl.
    - by rewrite app_nil_r.
    - destruct (blacklist_loop line blacklist). rewrite IH. by rewrite <- app_assoc. }
  apply Hfold.
Qed.

Lemma Golint_run_nil (g : Golint) (p : process) : Golint_run g p = None.
Proof.
  unfold Golint_run. destruct (capture p) as [[out code] err].
  unfold lint_verdict. rewrite filter_lines_all.
  pose proof (Split_newline_nonempty out). by destruct (GoStrings.Split out newline).
Qed.

Lemma Govet_run_nil (g : Govet) (p : process) : Govet_run g p = None.
Proof.
  unfold Govet_run. destruct (capture p) as [[out code] err].
  unfold lint_verdict. rewrite filter_lines_all.
  pose proof (Split_newline_nonempty out). by destruct (GoStrings.Split out newline).
Qed.

(** [Gofmt.run] fails exactly when gofmt printed something or could not be
    run; an exit code other than 0 alone does not fail it. *)
Lemma Gofmt_run_fails (g : Gofmt) (p : process) :
  is_Some (Gofmt_run g p)
  ↔ CombinedOutput p ≠ "" ∨
    (is_Some (CombinedOutput_err p) ∧ (ExitStatus p = None ∨ ExitStatus p = Some 0)).
Proof.
  unfold Gofmt_run, capture, is_Some.
  destruct p as [out err [code|]]; simpl.
  - destruct out as [|c out]; simpl; [|split; [by left|by eexists]].
    destruct (Z.eqb_spec code 0) as [->|Hne].
    + destruct err as [e|]; simpl.
      * split; [intros _; right; split; [by eexists|by right]|by eexists].
      * split; [by intros [? ?]|]. intros [?|[[? ?] _]]; done.
    + split; [by intros [? ?]|].
      intros [?|[_ [?|?]]]; [done|done|]. congruence.
  - destruct out as [|c out]; simpl; [|split; [by left|by eexists]].
    destruct err as [e|]; simpl.
    + split; [intros _; right; split; [by eexists|by left]|by eexists].
    + split; [by intros [? ?]|]. intros [?|[[? ?] _]]; done.
Qed.

(** C9, evaluated on the code. [Golint.run] and [Govet.run] return [nil]
    whatever the tool prints and whatever the blacklist holds: the test at
    the end is [len(result) == 0], and [result] always has at least one
    line. With an empty blacklist and a complaint of golint about main.go
    the check passes. (For gofmt, an exit code other than 0 with no output
    passes as well.) *)
Theorem C9_golint_never_fails :
  (∀ (g : Golint) (p : process), Golint_run g p = None) ∧
  (∀ (g : Govet) (p : process), Govet_run g p = None) ∧
  filter_lines (CombinedOutput golint_complains) []
  = ["main.go:12:1: exported function Run should have comment or be unexported"; ""] ∧
  Golint_run (Config_Golint defaultConfig) golint_complains = None ∧
  Gofmt_run (Config_Gofmt defaultConfig) silent_failure = None.
Proof.
  split; [exact Golint_run_nil|]. split; [exact Govet_run_nil|].
  repeat split; reflexivity.
Qed.

(** ** The scheduler *)

Section Scheduler.

Implicit Types (st : sched_state) (cap i : nat) (picks : list nat).

Lemma mjoin_take_head (l : list (list error)) i e rest :
  l !! i = Some (e :: rest) →
  mjoin l ≡ₚ e :: mjoin (<[i := rest]> l).
Proof.
  revert i. induction l as [|x l IH]; intros [|i] Hi; simplify_eq/=.
  - done.
  - rewrite (IH _ Hi). symmetry. apply Permutation_middle.
Qed.

Lemma advance_sends cap st i : all_sends (advance cap st i) ≡ₚ all_sends st.
Proof.
  unfold advance, all_sends.
  destruct (pending st !! i) as [[|e rest]|] eqn:Hi; try done.
  destruct (length (errs st) <? cap)%nat; [|done]. simpl.
  rewrite (mjoin_take_head _ _ _ _ Hi).
  by rewrite <- app_assoc.
Qed.

Lemma advance_room cap st i :
  (length (errs st) <= cap)%nat → (length (errs (advance cap st i)) <= cap)%nat.
Proof.
  unfold advance. intros Hle.
  destruct (pending st !! i) as [[|e rest]|]; try done.
  destruct (Nat.ltb_spec (length (errs st)) cap); [|done].
  simpl. rewrite length_app. simpl. lia.
Qed.

Lemma execute_sends cap picks st : all_sends (execute cap picks st) ≡ₚ all_sends st.
Proof.
  revert st. induction picks as [|i picks IH]; intros st; [done|].
  simpl. fold (execute cap picks (advance cap st i)).
  by rewrite IH, advance_sends.
Qed.

Lemma execute_room cap picks st :
  (length (errs st) <= cap)%nat → (length (errs (execute cap picks st)) <= cap)%nat.
Proof.
  revert st. induction picks as [|i picks IH]; intros st Hle; [done|].
  simpl. apply IH, advance_room, Hle.
Qed.

(** Every move of [advance] is a step of the relation or leaves the state
    alone, and every step is a move of [advance]. *)
Lemma advance_step cap st i :
  advance cap st i = st ∨ step cap st (advance cap st i).
Proof.
  unfold advance.
  destruct (pending st !! i) as [[|e rest]|] eqn:Hi; auto.
  destruct (Nat.ltb_spec (length (errs st)) cap); auto.
  right. by apply step_send.
Qed.

Lemma step_advance cap st st' : step cap st st' → ∃ i, advance cap st i = st'.
Proof.
  intros [st0 i e rest Hi Hlt]. exists i. unfold advance. rewrite Hi.
  by destruct (Nat.ltb_spec (length (errs st0)) cap); [|lia].
Qed.

Lemma execute_steps cap picks st : rtc (step cap) st (execute cap picks st).
Proof.
  revert st. induction picks as [|i picks IH]; intros st; [constructor|].
  simpl. fold (execute cap picks (advance cap st i)).
  destruct (advance_step cap st i) as [->|Hs]; [apply IH|].
  eapply rtc_l; [exact Hs|apply IH].
Qed.

Lemma steps_execute cap st st' :
  rtc (step cap) st st' → ∃ picks, execute cap picks st = st'.
Proof.
  induction 1 as [st|st st1 st2 Hs _ [picks IH]]; [by exists []|].
  destruct (step_advance _ _ _ Hs) as [i <-]. by exists (i :: picks).
Qed.

Lemma finished_no_pending st : finished st = true ↔ mjoin (pending st) = [].
Proof.
  unfold finished. induction (pending st) as [|[|e p] l IH]; simpl; try done.
Qed.

(** When [wg.Wait()] returns, the buffer holds every error that was sent. *)
Lemma finished_all_sent cap picks st :
  finished (execute cap picks st) = true →
  errs (execute cap picks st) ≡ₚ all_sends st.
Proof.
  intros Hf. apply finished_no_pending in Hf.
  rewrite <- (execute_sends cap picks st). unfold all_sends.
  by rewrite Hf, app_nil_r.
Qed.

(** The tasks can only all finish if every send fits in the buffer. *)
Lemma finished_fits cap picks st :
  (length (errs st) <= cap)%nat →
  finished (execute cap picks st) = true →
  (length (all_sends st) <= cap)%nat.
Proof.
  intros Hle Hf. rewrite <- (finished_all_sent cap picks st Hf).
  by apply execute_room.
Qed.

(** A blocked task cannot move. *)
Lemma blocked_stuck cap st i : blocked cap st i → advance cap st i = st.
Proof.
  intros (e & rest & Hi & Hfull). unfold advance. rewrite Hi.
  by destruct (Nat.ltb_spec (length (errs st)) cap); [lia|].
Qed.

Lemma execute_one_task cap (pre post : list (list error)) (sends buffer : list error) :
  (length buffer + length sends <= cap)%nat →
  execute cap (replicate (length sends) (length pre))
    {| pending := pre ++ sends :: post; errs := buffer |}
  = {| pending := pre ++ [] :: post; errs := buffer ++ sends |}.
Proof.
  revert buffer. induction sends as [|e sends IH]; intros buffer Hle.
  - simpl. by rewrite app_nil_r.
  - simpl in *. unfold advance at 1. simpl.
    rewrite list_lookup_middle by done.
    destruct (Nat.ltb_spec (length buffer) cap) as [_|]; [|lia].
    rewrite (insert_app_r_alt pre) by lia. rewrite Nat.sub_diag. simpl.
    fold (execute cap (replicate (length sends) (length pre))
            {| pending := pre ++ sends :: post; errs := buffer ++ [e] |}).
    rewrite IH by (rewrite length_app; simpl; lia).
    by rewrite <- app_assoc.
Qed.

Lemma execute_app cap picks1 picks2 st :
  execute cap (picks1 ++ picks2) st = execute cap picks2 (execute cap picks1 st).
Proof. apply fold_left_app. Qed.

Lemma execute_one_by_one cap (pre tasks : list (list error)) (buffer : list error) :
  (length buffer + length (mjoin tasks) <= cap)%nat →
  execute cap
    (mjoin (imap (fun i sends => replicate (length sends) (length pre + i)%nat) tasks))
    {| pending := pre ++ tasks; errs := buffer |}
  = {| pending := pre ++ ((fun _ => []) <$> tasks); errs := buffer ++ mjoin tasks |}.
Proof.
  revert pre buffer. induction tasks as [|sends tasks IH]; intros pre buffer Hle.
  - simpl. by rewrite !app_nil_r.
  - simpl in *. rewrite length_app in Hle.
    rewrite execute_app, Nat.add_0_r.
    rewrite execute_one_task by lia.
    rewrite (imap_ext _ (fun i sends0 =>
               replicate (length sends0) (length (pre ++ [[]]) + i)%nat))
      by (intros; simpl; rewrite length_app; simpl; f_equal; lia).
    rewrite (cons_middle [] pre tasks), app_assoc.
    rewrite IH by (rewrite length_app; lia).
    by rewrite <- !app_assoc.
Qed.

(** If all sends fit in the buffer, the tasks run to their end one after the
    other and the buffer then holds their errors in task order. *)
Lemma one_by_one_finishes cap (tasks : list (list error)) :
  (length (mjoin tasks) <= cap)%nat →
  execute cap (one_by_one tasks) {| pending := tasks; errs := [] |}
  = {| pending := (fun _ => []) <$> tasks; errs := mjoin tasks |}.
Proof.
  intros Hle. exact (execute_one_by_one cap [] tasks [] Hle).
Qed.

Lemma drain_printed total buffer err : (drain total buffer err).1 = buffer.
Proof.
  revert err. induction buffer as [|e buffer IH]; intros err; [done|].
  simpl. specialize (IH (Some e)). destruct (drain total buffer (Some e)).
  simpl in *. by f_equal.
Qed.

Lemma drain_result total buffer err :
  (drain total buffer err).2 =
    match buffer, err with
    | [], None => None
    | _, _ => Some (ErrChecksFailed total)
    end.
Proof.
  revert err. induction buffer as [|e buffer IH]; intros err.
  - by destruct err.
  - simpl. specialize (IH (Some e)). destruct (drain total buffer (Some e)).
    simpl in *. rewrite IH. by destruct buffer.
Qed.

(** When all sends fit in the buffer, no task is ever blocked. *)
Lemma no_task_blocks_when_fits cap st0 st i :
  (length (all_sends st0) <= cap)%nat →
  rtc (step cap) st0 st →
  ¬ blocked cap st i.
Proof.
  intros Hfit [picks <-]%steps_execute (e & rest & Hi & Hfull).
  pose proof (execute_sends cap picks st0) as Hperm.
  apply Permutation_length in Hperm.
  apply mjoin_take_head, Permutation_length in Hi.
  unfold all_sends in Hperm at 1. rewrite length_app, Hi in Hperm. simpl in Hperm. lia.
Qed.

(** Tasks that send at most one error each fit in a channel with one slot
    per task. *)
Lemma one_send_each_fits (tasks : list (list error)) :
  Forall (fun sends => (length sends <= 1)%nat) tasks →
  (length (mjoin tasks) <= length tasks)%nat.
Proof.
  induction 1 as [|sends tasks Hs _ IH]; [done|].
  simpl. rewrite length_app. lia.
Qed.

End Scheduler.

Lemma execute_invariant (P : sched_state → Prop) (cap : nat) (picks : list nat)
    (st : sched_state) :
  (∀ st' i, P st' → P (advance cap st' i)) → P st → P (execute cap picks st).
Proof.
  intros Hadv. revert st. induction picks as [|i picks IH]; intros st HP; [done|].
  simpl. apply IH, Hadv, HP.
Qed.

Lemma start_sends (config : Config) (enabledChecks : list check) (obs : nat → observation) :
  all_sends (start config enabledChecks obs)
  = mjoin (imap (fun i c => task config c (obs i)) enabledChecks).
Proof. done. Qed.

(** [run] cannot return when the tasks send more errors than there are
    enabled checks: some task stays blocked in its send whatever the
    interleaving. *)
Lemma run_waits_when_overfull (config : Config) (runLevel : Z)
    (obs : nat → observation) (total : Z) (picks : list nat) :
  (length (EnabledChecks config runLevel)
   < length (mjoin (imap (fun i c => task config c (obs i)) (EnabledChecks config runLevel))))%nat →
  run config runLevel obs total picks = Waiting.
Proof.
  intros Hlt. unfold run.
  destruct (finished _) eqn:Hf; [|done].
  apply finished_fits in Hf; [|simpl; lia].
  rewrite start_sends in Hf. lia.
Qed.

Lemma quiet_tasks (config : Config) (enabledChecks : list check) (obs : nat → observation) :
  (∀ i c, enabledChecks !! i = Some c →
     returned (obs i) = None ∧ duration (obs i) <= budget config c) →
  mjoin (imap (fun i c => task config c (obs i)) enabledChecks) = [].
Proof.
  revert obs. induction enabledChecks as [|c l IH]; intros obs Hq; [done|].
  rewrite imap_cons. simpl.
  destruct (Hq 0%nat c eq_refl) as [Hr Hd].
  unfold task at 1. rewrite Hr.
  destruct (Z.ltb_spec (budget config c) (duration (obs 0%nat))); [lia|]. simpl.
  apply (IH (obs ∘ S)). intros i c' Hi. exact (Hq (S i) c' Hi).
Qed.

Lemma execute_nothing_pending (cap : nat) (picks : list nat) (st : sched_state) :
  mjoin (pending st) = [] → execute cap picks st = st.
Proof.
  intros Hnil. apply (execute_invariant (fun st' => st' = st)); [|done].
  intros st' i ->. unfold advance.
  destruct (pending st !! i) as [[|e rest]|] eqn:Hi; try done.
  apply mjoin_take_head in Hi. rewrite Hnil in Hi.
  by apply Permutation_nil_cons in Hi.
Qed.

(** C3. [run] returns [nil] when every enabled check succeeds within its
    budget, whatever the interleaving of the tasks. Whenever [run] returns,
    the errors it drained and printed are all the errors the tasks sent, and
    the value returned is [nil] if none was drained and otherwise the error
    "checks failed in <total>s", which carries the duration of the whole run
    and none of the drained errors. And [run] does return, in the
    interleaving that runs the tasks one after the other, when the errors
    sent fit in the channel. *)
Theorem C3_run_result (config : Config) (runLevel : Z) (obs : nat → observation)
    (total : Z) (picks : list nat) :
  let enabledChecks := EnabledChecks config runLevel in
  let tasks := imap (fun i c => task config c (obs i)) enabledChecks in
  ((∀ i c, enabledChecks !! i = Some c →
      returned (obs i) = None ∧ duration (obs i) <= budget config c) →
   run config runLevel obs total picks = Returns [] None) ∧
  (∀ printed err,
     run config runLevel obs total picks = Returns printed err →
     printed ≡ₚ mjoin tasks ∧
     err = match printed with
           | [] => None
           | _ :: _ => Some (ErrChecksFailed total)
           end) ∧
  ((length (mjoin tasks) <= length enabledChecks)%nat →
   run config runLevel obs total (one_by_one tasks)
   = Returns (mjoin tasks)
       match mjoin tasks with
       | [] => None
       | _ :: _ => Some (ErrChecksFailed total)
       end).
Proof.
  intros enabledChecks tasks. split; [|split].
  - intros Hq. apply quiet_tasks in Hq. unfold run. fold enabledChecks.
    rewrite execute_nothing_pending by exact Hq.
    assert (finished (start config enabledChecks obs) = true) as ->
      by (by apply finished_no_pending).
    done.
  - intros printed err. unfold run. fold enabledChecks.
    destruct (finished _) eqn:Hf; [|done].
    pose proof (finished_all_sent _ _ _ Hf) as Hall.
    rewrite start_sends in Hall. fold tasks in Hall.
    pose proof (drain_printed total (errs (execute (length enabledChecks) picks
                  (start config enabledChecks obs))) None) as Hp.
    pose proof (drain_result total (errs (execute (length enabledChecks) picks
                  (start config enabledChecks obs))) None) as Hr.
    destruct (drain _ _ _) as [printed' r]. simpl in *.
    intros [= <- <-]. subst printed'. split; [done|].
    rewrite Hr. by destruct (errs _).
  - intros Hfit. unfold run. fold enabledChecks. unfold start. fold tasks.
    rewrite one_by_one_finishes by done.
    assert (finished {| pending := (fun _ => []) <$> tasks; errs := mjoin tasks |} = true) as ->.
    { apply finished_no_pending. simpl. clear. by induction tasks. }
    simpl.
    pose proof (drain_printed total (mjoin tasks) None) as Hp.
    pose proof (drain_result total (mjoin tasks) None) as Hr.
    destruct (drain _ _ _) as [printed' r]. simpl in *. subst.
    by destruct (mjoin tasks).
Qed.

(** The theorem at two runs of gofmt alone: one quick and clean, one clean
    but over its budget of one second. *)
Lemma C3_run_result_witness :
  run gofmt_only 0 quick_and_clean 700000000 [0%nat; 0%nat] = Returns [] None ∧
  run gofmt_only 0 slow_but_clean 2100000000 [0%nat]
  = Returns [ErrCheckTook "gofmt" 2000000000] (Some (ErrChecksFailed 2100000000)) ∧
  [ErrCheckTook "gofmt" 2000000000]
  ≡ₚ mjoin (imap (fun i c => task gofmt_only c (slow_but_clean i))
              (EnabledChecks gofmt_only 0)).
Proof.
  split; [|split].
  - destruct (C3_run_result gofmt_only 0 quick_and_clean 700000000 [0%nat; 0%nat])
      as [Hquiet _].
    apply Hquiet.
    intros [|i] c Hc; vm_compute in Hc; [|destruct i; discriminate].
    injection Hc as <-. split; [reflexivity|]. vm_compute. discriminate.
  - destruct (C3_run_result gofmt_only 0 slow_but_clean 2100000000 [0%nat])
      as (_ & _ & Hseq).
    apply Hseq. vm_compute. lia.
  - destruct (C3_run_result gofmt_only 0 slow_but_clean 2100000000 [0%nat])
      as (_ & Hret & _).
    apply (Hret _ (Some (ErrChecksFailed 2100000000))). reflexivity.
Defined.

(** The sends of a task: the budget error is the last send exactly when the
    duration is above the budget, whether or not the check returned an
    error. *)
Lemma task_sends (config : Config) (c : check) (o : observation) :
  task config c o =
    match returned o with Some err => [err] | None => [] end ++
    if bool_decide (budget config c < duration o)
    then [ErrCheckTook (GetName c) (duration o)] else [].
Proof.
  unfold task. f_equal.
  destruct (Z.ltb_spec (budget config c) (duration o)).
  - by rewrite bool_decide_eq_true_2.
  - by rewrite bool_decide_eq_false_2 by lia.
Qed.

Lemma task_at_most_two (config : Config) (c : check) (o : observation) :
  (length (task config c o) <= 2)%nat.
Proof.
  unfold task. destruct (returned o), (budget config c <? duration o); simpl; lia.
Qed.

(** The budget in nanoseconds is the effective maximum in seconds times
    [10^9] as long as that product fits an [int64]. *)
Lemma budget_in_range (config : Config) (c : check) :
  GoInt.in_range (effective_max config c * Second) →
  budget config c = effective_max config c * Second.
Proof.
  unfold budget, GoInt.mul, GoInt.wrap, GoInt.in_range, GoInt.minInt, GoInt.maxInt.
  intros H. rewrite Z.mod_small; lia.
Qed.

(** The example of the specification: a check with [maxDuration = 1] that
    takes two seconds and returns no error sends the budget error, and the
    run (of that check alone) reports it. *)
Example slow_but_clean_run :
  task gofmt_only (CheckGofmt (Config_Gofmt gofmt_only)) (slow_but_clean 0)
  = [ErrCheckTook "gofmt" 2000000000] ∧
  run gofmt_only 0 slow_but_clean 2100000000 [0%nat]
  = Returns [ErrCheckTook "gofmt" 2000000000] (Some (ErrChecksFailed 2100000000)).
Proof. split; reflexivity. Qed.

(** The states of the run of gofmt alone when it fails and is over budget. *)
Lemma slow_and_failing_states (picks : list nat) :
  let st := execute 1 picks (start gofmt_only (EnabledChecks gofmt_only 0) slow_and_failing) in
  st = {| pending := [[ErrImproperlyFormatted "gofmt" "main.go";
                       ErrCheckTook "gofmt" 2000000000]];
          errs := [] |} ∨
  st = {| pending := [[ErrCheckTook "gofmt" 2000000000]];
          errs := [ErrImproperlyFormatted "gofmt" "main.go"] |}.
Proof.
  apply execute_invariant; [|by left].
  intros st [|[|i]] [->| ->]; auto.
Qed.

(** C2, evaluated on the code. gofmt, the only enabled check, has a budget of
    one second, takes two seconds and returns an error. Its duration is above
    its budget, and its task reaches the send of the budget error; but the
    channel has one slot, which the error of the check occupies, so in no
    interleaving does the budget error enter the channel, and [run] never
    gets to drain it. *)
Theorem C2_budget_error_never_queued :
  let gofmt := CheckGofmt (Config_Gofmt gofmt_only) in
  EnabledChecks gofmt_only 0 = [gofmt] ∧
  budget gofmt_only gofmt = 1 * Second ∧
  budget gofmt_only gofmt < duration (slow_and_failing 0) ∧
  task gofmt_only gofmt (slow_and_failing 0)
  = [ErrImproperlyFormatted "gofmt" "main.go"; ErrCheckTook "gofmt" (2 * Second)] ∧
  ∀ total picks,
    (ErrCheckTook "gofmt" (2 * Second)
       ∉ errs (execute 1 picks (start gofmt_only [gofmt] slow_and_failing))) ∧
    run gofmt_only 0 slow_and_failing total picks = Waiting.
Proof.
  repeat split; try reflexivity.
  - destruct (slow_and_failing_states picks) as [H|H]; simpl in H;
      change (start gofmt_only _ slow_and_failing)
        with (start gofmt_only (EnabledChecks gofmt_only 0) slow_and_failing);
      rewrite H; simpl.
    + apply not_elem_of_nil.
    + intros Hin. apply list_elem_of_singleton in Hin. discriminate.
  - apply run_waits_when_overfull. vm_compute. lia.
Qed.

(** C10, evaluated on the code. The channel is made with one slot per enabled
    check, but a task sends twice when its check both fails and is over
    budget. With gofmt as the only enabled check the channel has one slot and
    the task has two sends: once the task has sent the first error it is
    blocked in its second send in every interleaving, and [wg.Wait()] never
    returns. *)
Theorem C10_second_send_blocks :
  let enabledChecks := EnabledChecks gofmt_only 0 in
  let st0 := start gofmt_only enabledChecks slow_and_failing in
  length enabledChecks = 1%nat ∧
  length (all_sends st0) = 2%nat ∧
  (∀ picks, blocked 1 (execute 1 (0%nat :: picks) st0) 0) ∧
  (∀ picks, finished (execute 1 picks st0) = false) ∧
  (∀ st, rtc (step 1) st0 st → finished st = false).
Proof.
  assert (∀ picks, finished (execute 1 picks
            (start gofmt_only (EnabledChecks gofmt_only 0) slow_and_failing)) = false)
    as Hnever.
  { intros picks. by destruct (slow_and_failing_states picks) as [H|H];
      simpl in H; rewrite H. }
  repeat split; try reflexivity.
  - intros picks. simpl execute.
    change (advance 1 _ 0%nat)
      with {| pending := [[ErrCheckTook "gofmt" 2000000000]];
              errs := [ErrImproperlyFormatted "gofmt" "main.go"] |}.
    rewrite (execute_invariant (fun st => st =
      {| pending := [[ErrCheckTook "gofmt" 2000000000]];
         errs := [ErrImproperlyFormatted "gofmt" "main.go"] |}) 1 picks _); [| |done].
    + exists (ErrCheckTook "gofmt" 2000000000), []. split; [done|simpl; lia].
    + by intros st [|[|i]] ->.
  - exact Hnever.
  - intros st Hst. apply steps_execute in Hst as [picks <-]. apply Hnever.
Qed.

(** ** The coverage check *)

Example parse_decimal_19_9 : parse_decimal "19.9" = Some percent_19_9.
Proof. reflexivity. Qed.

Example parse_decimal_85_7 : parse_decimal "85.7" = Some percent_85_7.
Proof. reflexivity. Qed.

Example analyze_cover_19_9 :
  analyze parse_decimal (Err ErrMalformedCoverage) cover_19_9
  = Ok (percent_19_9, {[ ("b.go:2:", "g") := 50%float ]}).
Proof. reflexivity. Qed.

Example emit_P1_P2 :
  emit {[ "b.go:2.1,2.5 1" := 1; "a.go:1.1,1.5 2" := 7 ]}
  = ["mode: count"; "a.go:1.1,1.5 2 7"; "b.go:2.1,2.5 1 1"].
Proof. reflexivity. Qed.

(** The keys are written in the order of [sort.Strings], each key once. *)
Lemma sorted_keys_sorted (counts : gmap string Z) :
  Sorted String.le (sorted_keys counts) ∧
  sorted_keys counts ≡ₚ (map_to_list counts).*1 ∧
  NoDup (sorted_keys counts).
Proof.
  unfold sorted_keys. split; [apply Sorted_merge_sort, _|].
  split; [apply merge_sort_Permutation|].
  rewrite merge_sort_Permutation. apply NoDup_fst_map_to_list.
Qed.

Lemma key_sum_written (counts : gmap string Z) (keys : list string) (K : string) :
  NoDup keys →
  key_sum K (written counts <$> keys)
  = if decide (K ∈ keys) then count_of (written counts K) else 0.
Proof.
  induction 1 as [|k keys Hk _ IH]; [done|].
  csimpl. rewrite IH. destruct (decide (k = K)) as [->|Hne].
  - rewrite (decide_False (P := K ∈ keys)) by done.
    rewrite (decide_True (P := K ∈ K :: keys)) by (by left). lia.
  - destruct (decide (K ∈ keys)) as [Hin|Hnin].
    + by rewrite (decide_True (P := K ∈ k :: keys)) by (by right).
    + rewrite (decide_False (P := K ∈ k :: keys)); [done|].
      rewrite elem_of_cons. by intros [?|?].
Qed.

(** The profile that [emit] writes is read back by the merge as the counts
    it was written from. *)
Lemma merge_emit (counts : gmap string Z) :
  map_Forall (fun _ n => GoInt.in_range n) counts →
  merge [inr (emit counts)] = Ok counts.
Proof.
  intros Hrange.
  assert (∀ K, GoInt.in_range (default 0 (counts !! K))) as Hdef.
  { intros K. destruct (counts !! K) as [n|] eqn:HK; [by eapply Hrange|].
    exact in_range_zero. }
  assert (∀ K, count_of (written counts K) = default 0 (counts !! K)) as Hcount.
  { intros K. unfold count_of, written. simpl. by rewrite Atoi_Itoa. }
  destruct (sorted_keys_sorted counts) as (_ & Hperm & Hnodup).
  pose (p := {| header := "mode: count"; entries := written counts <$> sorted_keys counts |}).
  assert ([inr (emit counts)] = file_of <$> [p]) as ->.
  { unfold emit, file_of, p. simpl. do 3 f_equal.
    rewrite <- list_fmap_compose. by apply list_fmap_ext. }
  rewrite merge_profiles.
  2:{ constructor; [|done]. simpl. apply Forall_fmap, Forall_forall. intros K _.
      split; [apply Itoa_no_space|]. eexists. simpl. by apply Atoi_Itoa. }
  f_equal. simpl. rewrite app_nil_r. apply map_eq. intros K.
  pose proof (lookup_add_entries K (written counts <$> sorted_keys counts) ∅) as Hsum.
  pose proof (lookup_add_entries_is_Some K (written counts <$> sorted_keys counts) ∅)
    as Hsome.
  rewrite lookup_empty in Hsum, Hsome.
  specialize (Hsum in_range_zero). simpl in Hsum. rewrite Z.add_0_l in Hsum.
  rewrite key_sum_written in Hsum by done.
  assert (K ∈ sorted_keys counts ↔ is_Some (counts !! K)) as Hkeys.
  { rewrite Hperm, list_elem_of_fmap. split.
    - intros ([k n] & -> & Hin). apply elem_of_map_to_list in Hin. by eexists.
    - intros [n Hn]. exists (K, n). split; [done|]. by apply elem_of_map_to_list. }
  assert (Exists (fun e => statement e = K) (written counts <$> sorted_keys counts)
          ↔ K ∈ sorted_keys counts) as Hex.
  { rewrite Exists_exists. split.
    - intros (e & (k & -> & Hk)%list_elem_of_fmap & <-). done.
    - intros Hk. exists (written counts K). split; [|done].
      apply list_elem_of_fmap. by exists K. }
  destruct (counts !! K) as [n|] eqn:HK.
  - assert (K ∈ sorted_keys counts) as Hin by (apply Hkeys; by eexists).
    rewrite decide_True, Hcount, HK in Hsum by done. simpl in Hsum.
    rewrite wrap_in_range in Hsum by (by eapply Hrange).
    destruct Hsome as [_ [r Hr]]; [right; by apply Hex|].
    rewrite Hr in Hsum |- *. simpl in Hsum. by subst.
  - destruct (foldl _ _ _ !! K) eqn:HR; [|done].
    destruct Hsome as [[[? [=]]|Hin%Hex%Hkeys] _]; [by eexists|].
    by destruct Hin.
Qed.

Section CoverageRun.

Variables (ParseFloat : string → option float) (t : TestCoverage) (env : coverage_env).
Variables (pkg tmpDir : string) (file : error + list string)
  (files : list (error + list string)).

(** The run gets as far as the merge: the package path and the temporary
    directory are there, there is a test directory, and [Glob] finds a
    profile. *)
Hypothesis Hpkg : relToGOPATH_pkgRoot env = inr pkg.
Hypothesis Hdirs : testDirs env ≠ [].
Hypothesis Htmp : TempDir env = inr tmpDir.
Hypothesis Hglob : Glob env = inr (file :: files).

Lemma Current_run_from_merge :
  Current.TestCoverage_run ParseFloat t env
  = Current.cleanup env
      (Current.analyze_and_upload ParseFloat t env (fan_out env pkg tmpDir) (file :: files)).
Proof.
  unfold Current.TestCoverage_run. rewrite Hpkg, Htmp, Hglob.
  by destruct (testDirs env).
Qed.

Lemma Legacy_run_from_merge :
  Legacy.TestCoverage_run ParseFloat t env
  = Legacy.upload_or_analyze ParseFloat t env (fan_out env pkg tmpDir) (file :: files).
Proof.
  unfold Legacy.TestCoverage_run. rewrite Hpkg, Htmp, Hglob.
  by destruct (testDirs env).
Qed.

Lemma returning_first_present (e : option error) (rest : list (option error)) :
  returning (first_present (e :: rest))
  = match e with
    | Some e' => Err e'
    | None => returning (first_present rest)
    end.
Proof. by destruct e. Qed.

(** C5, as the code has it. Once the run has got as far as the merge, the
    check returns: the error of the merge if the merge fails; else the error
    of [os.Create] if the merged profile cannot be written; else
    "malformed coverage file" if the output of the summarizer cannot be read
    (these returns are immediate). Otherwise, and if the summarizer could be
    started, it returns the first that is present of: the failure of the
    coverage minimum, the oldest queued failure of a test directory, the
    error of the upload (with the CI flag set), the error of removing the
    temporary directory. The older program, without the CI flag, returns the
    first present of the failure of the minimum and the oldest queued
    failure. *)
Theorem C5_error_precedence :
  (∀ e,
     merge (file :: files) = Err e →
     result (Current.TestCoverage_run ParseFloat t env) = Err e) ∧
  (∀ counts e,
     merge (file :: files) = Ok counts →
     Create env = Some e →
     result (Current.TestCoverage_run ParseFloat t env) = Err e) ∧
  (∀ counts out code launch e,
     merge (file :: files) = Ok counts →
     Create env = None →
     capture (cover_func env (emit counts)) = (out, code, launch) →
     analyze ParseFloat (Err ErrMalformedCoverage) out = Err e →
     result (Current.TestCoverage_run ParseFloat t env) = Err e) ∧
  (∀ counts out code st upload,
     merge (file :: files) = Ok counts →
     Create env = None →
     capture (cover_func env (emit counts)) = (out, code, None) →
     analyze ParseFloat (Err ErrMalformedCoverage) out = Ok st →
     upload = (if ci env then (capture (goveralls env (emit counts))).2 else None) →
     result (Current.TestCoverage_run ParseFloat t env)
     = returning (first_present
         [ threshold (MinimumCoverage t) st None;
           receive (fan_out env pkg tmpDir);
           upload;
           RemoveAll env ])) ∧
  (∀ counts out code st,
     ci env = false →
     merge (file :: files) = Ok counts →
     Create env = None →
     capture (cover_func env (emit counts)) = (out, code, None) →
     analyze ParseFloat Panic out = Ok st →
     result (Legacy.TestCoverage_run ParseFloat t env)
     = returning (first_present
         [ threshold (MinimumCoverage t) st None;
           receive (fan_out env pkg tmpDir) ])).
Proof.
  repeat split.
  - intros e Hm. rewrite Current_run_from_merge.
    unfold Current.analyze_and_upload. by rewrite Hm.
  - intros counts e Hm Hc. rewrite Current_run_from_merge.
    unfold Current.analyze_and_upload. by rewrite Hm, Hc.
  - intros counts out code launch e Hm Hc Hcap Ha. rewrite Current_run_from_merge.
    unfold Current.analyze_and_upload. by rewrite Hm, Hc, Hcap, Ha.
  - intros counts out code st upload Hm Hc Hcap Ha ->. rewrite Current_run_from_merge.
    unfold Current.analyze_and_upload. rewrite Hm, Hc, Hcap, Ha.
    rewrite !returning_first_present.
    destruct (threshold (MinimumCoverage t) st None) as [e|];
      destruct (receive (fan_out env pkg tmpDir)) as [e'|];
      destruct (ci env);
      try destruct (capture (goveralls env (emit counts))) as [[upout upcode] [e3|]];
      simpl; try done; by destruct (RemoveAll env).
  - intros counts out code st Hci Hm Hc Hcap Ha. rewrite Legacy_run_from_merge.
    unfold Legacy.upload_or_analyze. rewrite Hm, Hc, Hci, Hcap, Ha.
    rewrite !returning_first_present.
    destruct (threshold (MinimumCoverage t) st None) as [e|];
      by destruct (receive (fan_out env pkg tmpDir)) as [e'|].
Qed.


End CoverageRun.

Example merge_P2 :
  merge [file_of P2] = Ok {[ "a.go:1.1,1.5 2" := 4; "b.go:2.1,2.5 1" := 1 ]}.
Proof. reflexivity. Qed.

(** The theorem at four runs in which [go test] fails in the test directory:
    a profile that cannot be read, a merged profile that cannot be written,
    a summary that cannot be read, and a total below the minimum. *)
Lemma C5_error_precedence_witness :
  result (Current.TestCoverage_run parse_decimal default_coverage bad_profile_and_failed_test)
  = Err (ErrAtoi "many" Strconv.ErrSyntax) ∧
  result (Current.TestCoverage_run parse_decimal default_coverage no_profile_written)
  = Err (ErrOS "open /tmp/pre-commit-go042/profile.cov: no space left on device") ∧
  result (Current.TestCoverage_run parse_decimal default_coverage garbled_summary)
  = Err ErrMalformedCoverage ∧
  result (Current.TestCoverage_run parse_decimal default_coverage low_coverage_and_failed_test)
  = Err (ErrCoverage percent_19_9 1) ∧
  result (Legacy.TestCoverage_run parse_decimal default_coverage low_coverage_and_failed_test)
  = Err (ErrCoverage percent_19_9 1).
Proof.
  pose (pkg := "github.com/maruel/pre-commit-go").
  pose (tmpDir := "/tmp/pre-commit-go042").
  pose (counts := ({[ "a.go:1.1,1.5 2" := 4; "b.go:2.1,2.5 1" := 1 ]} : gmap string Z)).
  assert (∀ env : coverage_env,
            testDirs env = ["/go/src/github.com/maruel/pre-commit-go/checks"] →
            testDirs env ≠ []) as Hdirs by (intros env ->; discriminate).
  split; [|split; [|split; [|split]]].
  - refine (proj1 (C5_error_precedence parse_decimal default_coverage bad_profile_and_failed_test
                     pkg tmpDir _ _ eq_refl (Hdirs bad_profile_and_failed_test eq_refl) eq_refl eq_refl) _ _).
    reflexivity.
  - refine (proj1 (proj2 (C5_error_precedence parse_decimal default_coverage no_profile_written
                     pkg tmpDir _ _ eq_refl (Hdirs no_profile_written eq_refl) eq_refl eq_refl)) counts _ _ _).
    + reflexivity.
    + reflexivity.
  - refine (proj1 (proj2 (proj2 (C5_error_precedence parse_decimal default_coverage garbled_summary
                     pkg tmpDir _ _ eq_refl (Hdirs garbled_summary eq_refl) eq_refl eq_refl)))
              counts cover_garbled 0 None _ _ _ _ _).
    + reflexivity.
    + reflexivity.
    + reflexivity.
    + reflexivity.
  - etrans.
    + refine (proj1 (proj2 (proj2 (proj2 (C5_error_precedence parse_decimal default_coverage low_coverage_and_failed_test
                       pkg tmpDir _ _ eq_refl (Hdirs low_coverage_and_failed_test eq_refl) eq_refl eq_refl))))
                counts cover_19_9 0
                (percent_19_9, {[ ("b.go:2:", "g") := 50%float ]}) None _ _ _ _ _).
      * reflexivity.
      * reflexivity.
      * reflexivity.
      * reflexivity.
      * reflexivity.
    + reflexivity.
  - etrans.
    + refine (proj2 (proj2 (proj2 (proj2 (C5_error_precedence parse_decimal default_coverage low_coverage_and_failed_test
                       pkg tmpDir _ _ eq_refl (Hdirs low_coverage_and_failed_test eq_refl) eq_refl eq_refl))))
                counts cover_19_9 0
                (percent_19_9, {[ ("b.go:2:", "g") := 50%float ]}) _ _ _ _ _).
      * reflexivity.
      * reflexivity.
      * reflexivity.
      * reflexivity.
      * reflexivity.
    + reflexivity.
Defined.

(** C5 as stated fails when the summarizer cannot be started while the total
    is below the minimum: the error of starting [go tool cover] is an I/O
    error of the summarize step, yet the check returns the failure of the
    minimum (computed from a total of 0), in both programs. In package
    [checks] the error of the upload is likewise not returned when a test
    directory has failed. *)
Lemma C5_launch_error_masked :
  capture (cover_func summarizer_missing
             (emit {[ "a.go:1.1,1.5 2" := 4; "b.go:2.1,2.5 1" := 1 ]}))
  = ("", -1, Some (ErrOS "exec: go: executable file not found in $PATH")) ∧
  result (Current.TestCoverage_run parse_decimal default_coverage summarizer_missing)
  = Err (ErrCoverage 0 0) ∧
  result (Legacy.TestCoverage_run parse_decimal default_coverage summarizer_missing)
  = Err (ErrCoverage 0 0) ∧
  capture (goveralls failed_test_and_upload_on_ci
             (emit {[ "a.go:1.1,1.5 2" := 4; "b.go:2.1,2.5 1" := 1 ]}))
  = ("", -1, Some (ErrOS "exec: go: executable file not found in $PATH")) ∧
  result (Current.TestCoverage_run parse_decimal default_coverage
            failed_test_and_upload_on_ci)
  = Err test_failed.
Proof. repeat split; reflexivity. Qed.



(** ** [rsplitn] loses nothing *)

Lemma prefix_char (c a : ascii) (s : string) :
  String.prefix (String c "") (String a s) = Ascii.eqb a c.
Proof.
  change (String.prefix (String c "") (String a s))
    with (if ascii_dec c a then String.prefix "" s else false).
  destruct (ascii_dec c a) as [<-|Hne].
  - rewrite Ascii.eqb_refl. by destruct s.
  - symmetry. apply Ascii.eqb_neq. congruence.
Qed.








(** X2. [rsplitn(s, sep, n)] returns the pieces of
    [strings.SplitN(reverse(s), sep, n)], each one reversed, in the opposite
    order; it has as many pieces. *)
Theorem rsplitn_mirrors_SplitN (s sep : string) (n : Z) :
  rsplitn s sep n = rev (reverse <$> GoStrings.SplitN (reverse s) sep n) ∧
  length (rsplitn s sep n) = length (GoStrings.SplitN (reverse s) sep n).
Proof.
  rewrite rsplitn_rev. split; [done|]. by rewrite length_rev, length_fmap.
Qed.

(** ** More on the merge and on the profile it writes *)

(** X3. The body of the merge loop panics exactly on the lines that have no
    space: [rsplitn] then returns one item and [items[1]] is out of range. A
    line with a space is either merged or rejected with the error of
    [Atoi]. *)
Theorem merge_line_panics_iff (counts : gmap string Z) (line : string) :
  merge_line counts line = Panic ↔ GoStrings.Contains line " " = false.
Proof.
  split; [|apply merge_line_no_space].
  destruct (GoStrings.Contains line " ") eqn:Hl; [|done].
  destruct (split_last_space line Hl) as (a & b & -> & Hb).
  rewrite merge_line_last_space by done. by destruct (Strconv.Atoi b).
Qed.

(** X4. A profile file that holds its header line alone, or nothing at all,
    adds nothing to the merge, wherever it stands in the list of files. *)
Theorem merge_skips_empty_profile (counts : gmap string Z)
    (before after : list (error + list string)) (lines : list string) :
  (length lines <= 1)%nat →
  merge_files counts (before ++ inr lines :: after) = merge_files counts (before ++ after).
Proof.
  intros Hlen. rewrite !merge_files_app.
  destruct (merge_files counts before) as [counts'| |]; try done.
  simpl. by destruct lines as [|hd [|line lines]]; [..|simpl in Hlen; lia].
Qed.

Lemma merge_skips_empty_profile_witness :
  merge_files ∅ ([file_of P1] ++ inr ["mode: count"] :: [file_of P2])
  = merge_files ∅ ([file_of P1] ++ [file_of P2]).
Proof. apply (merge_skips_empty_profile ∅ [file_of P1] [file_of P2] ["mode: count"]). simpl. lia. Defined.



Lemma add_count_in_range (counts : gmap string Z) (key : string) (count : Z) :
  map_Forall (fun _ n => GoInt.in_range n) counts →
  map_Forall (fun _ n => GoInt.in_range n) (add_count counts key count).
Proof.
  intros Hc. unfold add_count. apply map_Forall_insert_2; [|done].
  apply wrap_range.
Qed.

Lemma merge_lines_in_range (lines : list string) (counts counts' : gmap string Z) :
  map_Forall (fun _ n => GoInt.in_range n) counts →
  merge_lines counts lines = Ok counts' →
  map_Forall (fun _ n => GoInt.in_range n) counts'.
Proof.
  revert counts. induction lines as [|line lines IH]; intros counts Hc; simpl.
  - by intros [= <-].
  - unfold merge_line at 1. destruct (read_line line) as [[key count]| |]; try done.
    simpl. apply IH. by apply add_count_in_range.
Qed.

(** Every count of the merged map is an [int]. *)
Lemma merge_files_in_range (files : list (error + list string))
    (counts counts' : gmap string Z) :
  map_Forall (fun _ n => GoInt.in_range n) counts →
  merge_files counts files = Ok counts' →
  map_Forall (fun _ n => GoInt.in_range n) counts'.
Proof.
  revert counts. induction files as [|file files IH]; intros counts Hc; simpl.
  - by intros [= <-].
  - destruct file as [err|lines]; [done|]. simpl.
    destruct (merge_lines counts (tail lines)) as [counts1| |] eqn:Hm; try done.
    simpl. apply IH. by eapply merge_lines_in_range.
Qed.

(** X6. The merged profile stands for the files it was merged from: when
    the merge of [files] succeeds with [counts], merging the profile written
    from [counts] together with further files gives what merging the
    further files into [counts] gives. In particular the written profile
    alone merges back to [counts]. *)
Theorem merge_of_merged (files more : list (error + list string))
    (counts : gmap string Z) :
  merge files = Ok counts →
  merge (inr (emit counts) :: more) = merge_files counts more ∧
  merge [inr (emit counts)] = Ok counts.
Proof.
  intros Hm.
  assert (merge [inr (emit counts)] = Ok counts) as Hback.
  { apply merge_emit. eapply merge_files_in_range; [|exact Hm]. apply map_Forall_empty. }
  split; [|done].
  unfold merge in *. change (inr (emit counts) :: more) with ([inr (emit counts)] ++ more).
  by rewrite merge_files_app, Hback.
Qed.

Lemma merge_of_merged_witness :
  merge (inr (emit {[ "a.go:1.1,1.5 2" := 3 ]}) :: [file_of P2])
  = merge_files {[ "a.go:1.1,1.5 2" := 3 ]} [file_of P2] ∧
  merge [inr (emit {[ "a.go:1.1,1.5 2" := 3 ]})] = Ok {[ "a.go:1.1,1.5 2" := 3 ]}.
Proof. apply (merge_of_merged [file_of P1] [file_of P2]). reflexivity. Defined.

(** X7. The merged profile is the header followed by one line per key of
    [counts], in ascending order of the keys; sorting makes it independent
    of the order in which the keys of the map are enumerated. *)
Theorem emit_sorted (counts : gmap string Z) :
  emit counts = "mode: count" :: (line_of <$> (written counts <$> sorted_keys counts)) ∧
  length (emit counts) = S (size counts) ∧
  Sorted String.le (sorted_keys counts) ∧
  NoDup (sorted_keys counts) ∧
  (∀ k, k ∈ sorted_keys counts ↔ is_Some (counts !! k)) ∧
  (∀ keys, keys ≡ₚ (map_to_list counts).*1 → merge_sort String.le keys = sorted_keys counts).
Proof.
  destruct (sorted_keys_sorted counts) as (Hsorted & Hperm & Hnodup).
  split; [|split; [|split; [done|split; [done|split]]]].
  - unfold emit. f_equal. rewrite <- list_fmap_compose. by apply list_fmap_ext.
  - unfold emit. simpl. rewrite length_fmap, Hperm, length_fmap.
    f_equal. apply length_map_to_list.
  - intros k. rewrite Hperm, list_elem_of_fmap. split.
    + intros ([k' n] & -> & Hin). apply elem_of_map_to_list in Hin. by eexists.
    + intros [n Hn]. exists (k, n). split; [done|]. by apply elem_of_map_to_list.
  - intros keys Hkeys. apply (Sorted_unique String.le); [apply Sorted_merge_sort, _|done|].
    by rewrite merge_sort_Permutation, Hkeys, Hperm.
Qed.

(** ** More on the coverage check *)

Lemma Contains_char_cons (c a : ascii) (s : string) :
  GoStrings.Contains (String a s) (String c "")
  = Ascii.eqb a c || GoStrings.Contains s (String c "").
Proof.
  change (GoStrings.Contains (String a s) (String c ""))
    with (String.prefix (String c "") (String a s) || GoStrings.Contains s (String c "")).
  by rewrite prefix_char.
Qed.

Lemma scan_char_none (c : ascii) (s : string) (limit : option nat) :
  GoStrings.Contains s (String c "") = false →
  GoStrings.scan (String c "") s 0 limit = [s].
Proof.
  induction s as [|a s IH]; [done|].
  rewrite Contains_char_cons. intros [Ha Hs]%orb_false_elim.
  cbn [GoStrings.scan]. by rewrite (IH Hs), prefix_char, Ha, andb_false_r.
Qed.

Lemma scan_char_first (c : ascii) (a b : string) :
  GoStrings.Contains a (String c "") = false →
  GoStrings.scan (String c "") (a +:+ String c b) 0 None
  = a :: GoStrings.scan (String c "") b 0 None.
Proof.
  induction a as [|x a IH].
  - intros _. change ("" +:+ String c b) with (String c b).
    cbn [GoStrings.scan]. by rewrite prefix_char, Ascii.eqb_refl.
  - rewrite Contains_char_cons. intros [Hx Ha]%orb_false_elim.
    rewrite append_cons. cbn [GoStrings.scan].
    by rewrite (IH Ha), prefix_char, Hx.
Qed.

(** X8. The loop over the output of [go tool cover -func] never reads the
    line of index 0: whatever stands before the first newline, the summary
    is the one read from the lines after it. An output of a single line
    therefore gives a total of 0 and no function. *)
Theorem analyze_skips_first_line (ParseFloat : string → option float)
    (on_parse_error : outcome error summary) (first rest : string) :
  GoStrings.Contains first newline = false →
  analyze ParseFloat on_parse_error (first +:+ newline +:+ rest)
  = analyze_lines ParseFloat on_parse_error (0%float, ∅) (GoStrings.Split rest newline) ∧
  analyze ParseFloat on_parse_error first = Ok (0%float, ∅).
Proof.
  intros Hfirst. unfold analyze, GoStrings.Split, GoStrings.SplitN, newline in *.
  cbn [Z.eqb Z.ltb Z.compare].
  change (String "010" "" +:+ rest) with (String "010" rest).
  split.
  - by rewrite scan_char_first.
  - by rewrite scan_char_none.
Qed.

Lemma analyze_skips_first_line_witness :
  analyze parse_decimal (Err ErrMalformedCoverage)
    ("total:" +:+ tab +:+ "(statements)" +:+ tab +:+ "85.7%" +:+ newline +:+ "")
  = analyze_lines parse_decimal (Err ErrMalformedCoverage) (0%float, ∅) (GoStrings.Split "" newline) ∧
  analyze parse_decimal (Err ErrMalformedCoverage)
    ("total:" +:+ tab +:+ "(statements)" +:+ tab +:+ "85.7%")
  = Ok (0%float, ∅).
Proof.
  apply (analyze_skips_first_line parse_decimal (Err ErrMalformedCoverage)
           ("total:" +:+ tab +:+ "(statements)" +:+ tab +:+ "85.7%") "").
  reflexivity.
Defined.

Lemma analyze_line_generations (ParseFloat : string → option float) (st : summary)
    (line : string) :
  analyze_line ParseFloat (Err ErrMalformedCoverage) st line
  = analyze_line ParseFloat Panic st line ∨
  (analyze_line ParseFloat (Err ErrMalformedCoverage) st line = Err ErrMalformedCoverage ∧
   analyze_line ParseFloat Panic st line = Panic).
Proof.
  unfold analyze_line.
  destruct (String.length line =? 0)%nat; [by left|].
  destruct (GoStrings.SplitN line tab 2 !! 0%nat); [|by left].
  destruct (length (GoStrings.SplitN line tab 2) =? 1)%nat; [by left|].
  destruct (GoStrings.SplitN line tab 2 !! 1%nat) as [rest|]; [|by left].
  destruct (GoStrings.SplitN (GoStrings.TrimLeft rest tab) tab 2 !! 0%nat); [|by left].
  destruct (GoStrings.SplitN (GoStrings.TrimLeft rest tab) tab 2 !! 1%nat) as [last|];
    [|by left].
  destruct (String.length (GoStrings.TrimLeft last tab) =? 0)%nat; [by left|].
  destruct (ParseFloat _); [by left|by right].
Qed.

Lemma analyze_lines_generations (ParseFloat : string → option float) (st : summary)
    (lines : list string) :
  analyze_lines ParseFloat (Err ErrMalformedCoverage) st lines
  = analyze_lines ParseFloat Panic st lines ∨
  (analyze_lines ParseFloat (Err ErrMalformedCoverage) st lines = Err ErrMalformedCoverage ∧
   analyze_lines ParseFloat Panic st lines = Panic).
Proof.
  revert st. induction lines as [|line lines IH]; intros st; [by left|].
  simpl. destruct (analyze_line_generations ParseFloat st line) as [<-|[-> ->]].
  - destruct (analyze_line ParseFloat (Err ErrMalformedCoverage) st line) as [st'| |];
      [apply IH|by left..].
  - by right.
Qed.

(** X9. Outside CI ([TRAVIS_JOB_ID] empty) and when the temporary directory
    can be removed, the coverage check of package [checks] and the one of
    the older program return the same value and upload nothing, with one
    exception: on a summary whose percentage cannot be parsed the older
    program panics where package [checks] returns "malformed coverage
    file". *)
Theorem coverage_generations_agree (ParseFloat : string → option float)
    (t : TestCoverage) (env : coverage_env) :
  ci env = false →
  RemoveAll env = None →
  uploaded (Current.TestCoverage_run ParseFloat t env) = false ∧
  uploaded (Legacy.TestCoverage_run ParseFloat t env) = false ∧
  (result (Current.TestCoverage_run ParseFloat t env)
   = result (Legacy.TestCoverage_run ParseFloat t env) ∨
   (result (Current.TestCoverage_run ParseFloat t env) = Err ErrMalformedCoverage ∧
    result (Legacy.TestCoverage_run ParseFloat t env) = Panic)).
Proof.
  intros Hci Hrm.
  assert (∀ r, Current.cleanup env r = r) as Hclean.
  { intros [u r]. unfold Current.cleanup. simpl. rewrite Hrm. by destruct r as [[]| |]. }
  unfold Current.TestCoverage_run, Legacy.TestCoverage_run.
  destruct (relToGOPATH_pkgRoot env) as [e|pkg]; [by auto|].
  destruct (testDirs env) as [|td tds]; [by auto|].
  destruct (TempDir env) as [e|tmpDir]; [by auto|].
  rewrite Hclean.
  destruct (Glob env) as [e|[|file files]]; [by auto..|].
  unfold Current.analyze_and_upload, Legacy.upload_or_analyze.
  destruct (merge (file :: files)) as [counts|e|]; [|by auto..].
  destruct (Create env) as [e|]; [by auto|].
  rewrite Hci.
  destruct (capture (cover_func env (emit counts))) as [[out code] err].
  unfold analyze.
  destruct (analyze_lines_generations ParseFloat (0%float, ∅)
              (tail (GoStrings.Split out newline))) as [<-|[-> ->]]; [|by auto].
  destruct (analyze_lines ParseFloat (Err ErrMalformedCoverage) (0%float, ∅)
              (tail (GoStrings.Split out newline))) as [st|e|]; by auto.
Qed.

Lemma coverage_generations_agree_witness :
  uploaded (Current.TestCoverage_run parse_decimal default_coverage low_coverage_and_failed_test)
  = false ∧
  uploaded (Legacy.TestCoverage_run parse_decimal default_coverage low_coverage_and_failed_test)
  = false ∧
  (result (Current.TestCoverage_run parse_decimal default_coverage low_coverage_and_failed_test)
   = result (Legacy.TestCoverage_run parse_decimal default_coverage low_coverage_and_failed_test) ∨
   (result (Current.TestCoverage_run parse_decimal default_coverage low_coverage_and_failed_test)
    = Err ErrMalformedCoverage ∧
    result (Legacy.TestCoverage_run parse_decimal default_coverage low_coverage_and_failed_test)
    = Panic)).
Proof.
  apply (coverage_generations_agree parse_decimal default_coverage low_coverage_and_failed_test);
    reflexivity.
Defined.

(** ** The checks that run commands *)

Lemma length_zero_empty (s : string) : (String.length s =? 0)%nat = true ↔ s = "".
Proof. destruct s; simpl; split; done. Qed.

(** A run is quiet when it prints nothing and either reports no error or
    exits with a code other than 0, in which case [captureWd] drops the
    error. *)
Lemma quiet_spec (p : process) :
  quiet p = true
  ↔ CombinedOutput p = "" ∧
    (CombinedOutput_err p = None ∨ ∃ code, ExitStatus p = Some code ∧ code ≠ 0).
Proof.
  unfold quiet, capture. destruct p as [out err [code|]]; simpl;
    rewrite andb_true_iff, length_zero_empty.
  - destruct (Z.eqb_spec code 0) as [->|Hne]; [destruct err as [e|]|].
    + split; [by intros [_ ?]|]. intros [_ [?|(? & [= <-] & ?)]]; done.
    + split; [intros [? _]; split; [done|by left]|by intros [? _]].
    + split; [intros [? _]; split; [done|right; by exists code]|by intros [? _]].
  - destruct err as [e|].
    + split; [by intros [_ ?]|]. intros [_ [?|(? & ? & ?)]]; done.
    + split; [intros [? _]; split; [done|by left]|by intros [? _]].
Qed.

Lemma quiet_capture (p : process) :
  quiet p = true ↔ ∃ code, capture p = ("", code, None).
Proof.
  unfold quiet. destruct (capture p) as [[out code] err]. simpl.
  rewrite andb_true_iff, length_zero_empty. split.
  - intros [-> Herr]. destruct err; [done|]. by exists code.
  - intros (code' & [= -> _ ->]). done.
Qed.

(** X10. [Gofmt.run] and [Goimports.run] pass exactly when the tool prints
    nothing and either reports no error or exits with a code other than 0:
    the exit code alone never fails them. Any output fails them with the
    "improperly formatted" error, whatever the exit code. *)
Theorem format_checks_pass (g : Gofmt) (g' : Goimports) (p : process) :
  (Gofmt_run g p = None ↔ quiet p = true) ∧
  (Goimports_run g' p = None ↔ quiet p = true) ∧
  (quiet p = true
   ↔ CombinedOutput p = "" ∧
     (CombinedOutput_err p = None ∨ ∃ code, ExitStatus p = Some code ∧ code ≠ 0)) ∧
  (CombinedOutput p ≠ "" →
   Gofmt_run g p = Some (ErrImproperlyFormatted "gofmt" (CombinedOutput p)) ∧
   Goimports_run g' p = Some (ErrImproperlyFormatted "goimports" (CombinedOutput p))).
Proof.
  split; [|split; [|split; [apply quiet_spec|]]].
  - unfold Gofmt_run, quiet. destruct (capture p) as [[out code] err].
    destruct out, err; simpl; split; done.
  - unfold Goimports_run, quiet. destruct (capture p) as [[out code] err].
    destruct out, err; simpl; split; done.
  - intros Hout. unfold Gofmt_run, Goimports_run, capture.
    destruct p as [out err [code|]]; simpl in *; destruct out; done.
Qed.

Lemma BuildOnly_loop_passes (go_build : nat → process) (index : nat)
    (extraArgs : list (list string)) :
  BuildOnly_loop go_build index extraArgs = None
  ↔ ∀ i, (i < length extraArgs)%nat → quiet (go_build (index + i)%nat) = true.
Proof.
  revert index. induction extraArgs as [|extraarg rest IH]; intros index; simpl.
  - split; [intros _ i Hi; lia|done].
  - pose proof (quiet_capture (go_build index)) as Hq.
    destruct (capture (go_build index)) as [[out code] err].
    destruct out as [|c out]; simpl.
    + destruct err as [e|].
      * split; [done|]. intros Hall. specialize (Hall 0%nat ltac:(lia)).
        rewrite Nat.add_0_r in Hall. apply Hq in Hall as [? [=]].
      * rewrite IH. split.
        -- intros Hall [|i] Hi.
           ++ rewrite Nat.add_0_r. apply Hq. by eexists.
           ++ replace (index + S i)%nat with (S index + i)%nat by lia. apply Hall. lia.
        -- intros Hall i Hi. replace (S index + i)%nat with (index + S i)%nat by lia.
           apply Hall. lia.
    + split; [done|]. intros Hall. specialize (Hall 0%nat ltac:(lia)).
      rewrite Nat.add_0_r in Hall. apply Hq in Hall as [? [=]].
Qed.

(** X11. [BuildOnly.run] passes exactly when [ExtraArgs] is not empty and
    every build prints nothing and leaves no error; an empty [ExtraArgs]
    fails the check without any build. *)
Theorem BuildOnly_run_passes (b : BuildOnly) (go_build : nat → process) :
  BuildOnly_run b go_build = None
  ↔ BuildOnly_ExtraArgs b ≠ [] ∧
    ∀ i, (i < length (BuildOnly_ExtraArgs b))%nat → quiet (go_build i) = true.
Proof.
  unfold BuildOnly_run. destruct (BuildOnly_ExtraArgs b) as [|extraarg rest] eqn:Hargs.
  - simpl. split; [done|]. by intros [? _].
  - change (length (extraarg :: rest) =? 0)%nat with false.
    rewrite BuildOnly_loop_passes. split; [intros Hall; split; [done|exact Hall]|].
    by intros [_ Hall].
Qed.




(** X13. [CustomCheck.run] with a command line that is not empty. With
    [CheckExitCode] set it passes exactly when the command exits with code 0
    and [CombinedOutput] reports no error. Without it the exit code never
    fails the check: it passes unless the command reports an error while
    exiting with code 0 or without a process state (it could not be
    started). The output is never looked at. *)
Theorem CustomCheck_run_passes (c : CustomCheck) (p : process) :
  Command c ≠ [] →
  (CustomCheck_run c p = Ok tt
   ↔ if CheckExitCode c
     then ExitStatus p = Some 0 ∧ CombinedOutput_err p = None
     else CombinedOutput_err p = None ∨ ∃ code, ExitStatus p = Some code ∧ code ≠ 0) ∧
  CustomCheck_run c p ≠ Panic.
Proof.
  intros Hcmd. unfold CustomCheck_run, capture.
  destruct (Command c) as [|exe args]; [done|].
  destruct p as [out err [code|]]; simpl.
  - destruct (Z.eqb_spec code 0) as [->|Hne]; simpl.
    + destruct (CheckExitCode c), err as [e|]; simpl; (split; [split|done]);
        try done; try (by intros [_ ?]); try (by intros [?|(? & [= <-] & ?)]);
        try (intros _; by left).
    + destruct (CheckExitCode c); simpl; (split; [split|done]); try done.
      * intros [[= ?] _]. done.
      * intros _. right. by exists code.
  - destruct (CheckExitCode c); simpl.
    + split; [split|done]; [done|]. by intros [? _].
    + destruct err as [e|]; simpl; (split; [split|done]); try done.
      * by intros [?|(? & ? & ?)].
      * intros _. by left.
Qed.

Lemma CustomCheck_run_passes_witness :
  CustomCheck_run {| Custom_Common := {| RunLevel := 1; MaxDuration := 0 |};
                     Name := "lint"; Description := ""; Command := ["make"; "lint"];
                     CheckExitCode := false; Prerequisites := [] |} silent_failure = Ok tt.
Proof.
  apply (CustomCheck_run_passes
           {| Custom_Common := {| RunLevel := 1; MaxDuration := 0 |};
              Name := "lint"; Description := ""; Command := ["make"; "lint"];
              CheckExitCode := false; Prerequisites := [] |} silent_failure).
  - simpl. discriminate.
  - simpl. right. exists 2. split; [reflexivity|lia].
Defined.

Lemma rel_dirs_inr (relToGOPATH : string → error + string) (dirs rels : list string) :
  rel_dirs relToGOPATH dirs = inr rels ↔ Forall2 (fun d rel => relToGOPATH d = inr rel) dirs rels.
Proof.
  revert rels. induction dirs as [|d dirs IH]; intros rels; simpl.
  - split; [intros [= <-]; constructor|by intros ->%Forall2_nil_inv_l].
  - destruct (relToGOPATH d) as [err|rel] eqn:Hd.
    + split; [done|]. intros (rel & rels' & Hrel & _ & _)%Forall2_cons_inv_l. congruence.
    + destruct (rel_dirs relToGOPATH dirs) as [err|rels'] eqn:Hrest.
      * split; [done|]. intros (rel' & rels' & _ & Hall & _)%Forall2_cons_inv_l.
        apply IH in Hall. done.
      * split.
        -- intros [= <-]. constructor; [done|]. by apply IH.
        -- intros (rel' & rels'' & Hrel & Hall & ->)%Forall2_cons_inv_l.
           apply IH in Hall. congruence.
Qed.

Lemma rel_dirs_inl (relToGOPATH : string → error + string) (dirs : list string) (err : error) :
  rel_dirs relToGOPATH dirs = inl err
  ↔ ∃ before d after, dirs = before ++ d :: after ∧
      Forall (fun d' => ∃ rel, relToGOPATH d' = inr rel) before ∧ relToGOPATH d = inl err.
Proof.
  induction dirs as [|d dirs IH]; simpl.
  - split; [done|]. intros (before & d & after & Hnil & _). by destruct before.
  - destruct (relToGOPATH d) as [err'|rel] eqn:Hd.
    + split.
      * intros [= ->]. exists [], d, dirs. by repeat split.
      * intros ([|d' before] & d0 & after & [= <- ->] & Hbefore & Herr); [congruence|].
        apply Forall_cons in Hbefore as [[rel ?] _]. congruence.
    + destruct (rel_dirs relToGOPATH dirs) as [err'|rels'] eqn:Hrest.
      * split.
        -- intros [= ->]. destruct IH as [(before & d0 & after & -> & Hbefore & Herr) _]; [done|].
           exists (d :: before), d0, after. split; [done|]. split; [|done].
           constructor; [by eexists|done].
        -- intros ([|d' before] & d0 & after & [= <- ->] & Hbefore & Herr); [congruence|].
           apply Forall_cons in Hbefore as [_ Hbefore].
           f_equal. assert (inl err' = (inl err : error + list string)) as [= ->]; [|done].
           apply IH. by exists before, d0, after.
      * split; [done|].
        intros ([|d' before] & d0 & after & [= <- ->] & Hbefore & Herr); [congruence|].
        apply Forall_cons in Hbefore as [_ Hbefore].
        assert (inr rels' = (inl err : error + list string)) as [=].
        apply IH. by exists before, d0, after.
Qed.

(** X14. [Errcheck.run] passes exactly when every directory can be made
    relative to GOPATH and errcheck, run on these relative paths in the
    order of the directories, prints nothing and leaves no error. When a
    directory cannot be made relative, the check returns the error of the
    first such directory, whatever errcheck would do. *)
Theorem Errcheck_run_passes (e : Errcheck) (relToGOPATH : string → error + string)
    (dirs : list string) (errcheck : list string → process) :
  (Errcheck_run e relToGOPATH dirs errcheck = None
   ↔ ∃ rels, Forall2 (fun d rel => relToGOPATH d = inr rel) dirs rels ∧
       quiet (errcheck (["errcheck"; "-ignore"; Ignores e] ++ rels)) = true) ∧
  (∀ before d after err,
     dirs = before ++ d :: after →
     Forall (fun d' => ∃ rel, relToGOPATH d' = inr rel) before →
     relToGOPATH d = inl err →
     Errcheck_run e relToGOPATH dirs errcheck = Some err).
Proof.
  split.
  - unfold Errcheck_run. destruct (rel_dirs relToGOPATH dirs) as [err|rels] eqn:Hrel.
    + split; [done|]. intros (rels & Hall%rel_dirs_inr & _). congruence.
    + pose proof (quiet_capture (errcheck (["errcheck"; "-ignore"; Ignores e] ++ rels))) as Hq.
      destruct (capture _) as [[out code] err]. split.
      * intros Hnone. exists rels. split; [by apply rel_dirs_inr|].
        apply Hq. exists code. destruct out, err; simpl in *; done.
      * intros (rels' & Hall%rel_dirs_inr & Hquiet).
        assert (rels' = rels) as -> by congruence.
        apply Hq in Hquiet as (code' & [= -> _ ->]). done.
  - intros before d after err Hdirs Hbefore Hd. unfold Errcheck_run.
    assert (rel_dirs relToGOPATH dirs = inl err) as ->; [|done].
    apply rel_dirs_inl. by exists before, d, after.
Qed.

(** ** [Test.run] *)

Lemma Test_task_at_most_one (relToGOPATH : string → error + string) (p : process)
    (extraarg : list string) (testDir : string) :
  (length (Test_task relToGOPATH p extraarg testDir) <= 1)%nat.
Proof.
  unfold Test_task. destruct (relToGOPATH testDir) as [err|rel]; [done|].
  destruct (capture p) as [[out exitCode] err]. destruct (negb _); simpl; lia.
Qed.

(** The tasks of a round send at most as many errors as the channel of the
    round has slots. *)
Lemma Test_tasks_fit (relToGOPATH : string → error + string) (go_test : nat → process)
    (extraarg : list string) (testDirs : list string) :
  (length (mjoin (Test_tasks relToGOPATH go_test extraarg testDirs)) <= length testDirs)%nat.
Proof.
  rewrite <- (length_imap (fun i testDir => Test_task relToGOPATH (go_test i) extraarg testDir)
                testDirs).
  apply one_send_each_fits. unfold Test_tasks.
  apply Forall_lookup. intros i sends Hi.
  apply list_lookup_imap_Some in Hi as (testDir & _ & ->).
  apply Test_task_at_most_one.
Qed.

Lemma mjoin_nil (tasks : list (list error)) :
  mjoin tasks = [] ↔ ∀ i sends, tasks !! i = Some sends → sends = [].
Proof.
  induction tasks as [|sends tasks IH]; simpl.
  - split; [by intros _ i sends|done].
  - split.
    + intros [-> Hrest]%app_eq_nil [|i] sends' Hi; simplify_eq/=; [done|].
      by eapply IH.
    + intros Hall. rewrite (Hall 0%nat sends eq_refl). simpl.
      apply IH. intros i sends' Hi. by apply (Hall (S i)).
Qed.

Lemma Test_tasks_nil (relToGOPATH : string → error + string) (go_test : nat → process)
    (extraarg : list string) (testDirs : list string) :
  mjoin (Test_tasks relToGOPATH go_test extraarg testDirs) = []
  ↔ ∀ i testDir, testDirs !! i = Some testDir →
      Test_task relToGOPATH (go_test i) extraarg testDir = [].
Proof.
  rewrite mjoin_nil. unfold Test_tasks. split.
  - intros Hall i testDir Hi. apply (Hall i). by rewrite list_lookup_imap, Hi.
  - intros Hall i sends Hi. apply list_lookup_imap_Some in Hi as (testDir & Hi & ->).
    by apply Hall.
Qed.

(** X15. In a round of [Test.run] no task ever waits for room in the
    channel: every task sends at most one error and the channel has one slot
    per test directory, so in every state the tasks can reach, a task that
    is at its send finds the channel not full, and the round can go on
    until every task has ended. *)
Theorem Test_round_never_blocks (relToGOPATH : string → error + string)
    (go_test : nat → process) (extraarg : list string) (testDirs : list string)
    (st : sched_state) (i : nat) (e : error) (rest : list error) :
  rtc (step (length testDirs))
    {| pending := Test_tasks relToGOPATH go_test extraarg testDirs; errs := [] |} st →
  pending st !! i = Some (e :: rest) →
  (length (errs st) < length testDirs)%nat ∧
  ∃ st', step (length testDirs) st st'.
Proof.
  intros Hreach Hi.
  assert (length (errs st) < length testDirs)%nat as Hroom.
  { destruct (Nat.lt_ge_cases (length (errs st)) (length testDirs)) as [|Hfull]; [done|].
    exfalso. eapply (no_task_blocks_when_fits (length testDirs)); [|exact Hreach|].
    - apply Test_tasks_fit.
    - by exists e, rest. }
  split; [done|]. eexists. by eapply step_send.
Qed.

Lemma Test_round_never_blocks_witness :
  (length (errs {| pending := Test_tasks (fun d => inr d) (fun _ => exits 1 "FAIL") ["-v"] ["pkg"];
                   errs := [] |}) < length ["pkg"])%nat ∧
  ∃ st', step (length ["pkg"])
           {| pending := Test_tasks (fun d => inr d) (fun _ => exits 1 "FAIL") ["-v"] ["pkg"];
              errs := [] |} st'.
Proof.
  apply (Test_round_never_blocks (fun d => inr d) (fun _ => exits 1 "FAIL") ["-v"] ["pkg"]
           _ 0%nat (ErrNew ("go test -v pkg failed:" +:+ newline +:+ "FAIL")) []).
  - apply rtc_refl.
  - reflexivity.
Defined.

Lemma Test_rounds_pass (relToGOPATH : string → error + string)
    (go_test : nat → nat → process) (testDirs : list string) (picks : nat → list nat)
    (round : nat) (extraArgs : list (list string)) :
  Test_rounds relToGOPATH go_test testDirs picks round extraArgs = Some None
  ↔ ∀ r extraarg i testDir,
      extraArgs !! r = Some extraarg → testDirs !! i = Some testDir →
      Test_task relToGOPATH (go_test (round + r)%nat i) extraarg testDir = [].
Proof.
  revert round. induction extraArgs as [|extraarg rest IH]; intros round.
  - simpl. split; [by intros _ r extraarg i testDir|done].
  - cbn [Test_rounds].
    set (st0 := {| pending := Test_tasks relToGOPATH (go_test round) extraarg testDirs;
                   errs := [] |}).
    split.
    + destruct (finished _) eqn:Hf; [|done].
      pose proof (finished_all_sent _ _ _ Hf) as Hall.
      destruct (errs (execute (length testDirs) (picks round) st0)) as [|err buffer];
        [|done].
      simpl. intros Hrest. apply Permutation_nil_l in Hall.
      change (all_sends st0) with (mjoin (pending st0)) in Hall. 
      intros [|r] extraarg' i testDir Hr Hi; simplify_eq/=.
      * rewrite Nat.add_0_r. by eapply Test_tasks_nil.
      * replace (round + S r)%nat with (S round + r)%nat by lia.
        by eapply IH.
    + intros Hall.
      assert (mjoin (pending st0) = []) as Hnil.
      { apply Test_tasks_nil. intros i testDir Hi.
        specialize (Hall 0%nat extraarg i testDir eq_refl Hi).
        by rewrite Nat.add_0_r in Hall. }
      rewrite execute_nothing_pending by done.
      assert (finished st0 = true) as -> by (by apply finished_no_pending).
      simpl. apply IH. intros r extraarg' i testDir Hr Hi.
      replace (S round + r)%nat with (round + S r)%nat by lia. by eapply Hall.
Qed.

(** X16. [Test.run] returns [nil] exactly when [ExtraArgs] is not empty
    and, in every round, every test directory can be made relative to GOPATH
    and its [go test] exits with code 0; this holds whatever the
    interleaving of the tasks. *)
Theorem Test_run_passes (t : Test) (relToGOPATH : string → error + string)
    (go_test : nat → nat → process) (testDirs : list string) (picks : nat → list nat) :
  Test_run t relToGOPATH go_test testDirs picks = Some None
  ↔ Test_ExtraArgs t ≠ [] ∧
    ∀ round extraarg i testDir,
      Test_ExtraArgs t !! round = Some extraarg → testDirs !! i = Some testDir →
      ∃ rel, relToGOPATH testDir = inr rel ∧ (capture (go_test round i)).1.2 = 0.
Proof.
  assert (∀ p extraarg testDir,
            Test_task relToGOPATH p extraarg testDir = []
            ↔ ∃ rel, relToGOPATH testDir = inr rel ∧ (capture p).1.2 = 0) as Htask.
  { intros p extraarg testDir. unfold Test_task.
    destruct (relToGOPATH testDir) as [err|rel].
    - split; [done|]. by intros (? & ? & _).
    - destruct (capture p) as [[out exitCode] err]. simpl.
      destruct (Z.eqb_spec exitCode 0) as [->|Hne]; simpl.
      + split; [by exists rel|done].
      + split; [done|]. by intros (? & _ & ?). }
  unfold Test_run. destruct (Test_ExtraArgs t) as [|extraarg rest] eqn:Hargs.
  - simpl. split; [done|]. by intros [? _].
  - change (length (extraarg :: rest) =? 0)%nat with false.
    rewrite Test_rounds_pass. split.
    + intros Hall. split; [done|]. intros round extraarg' i testDir Hr Hi.
      apply (Htask _ extraarg'). by apply (Hall round).
    + intros [_ Hall] r extraarg' i testDir Hr Hi.
      apply Htask. by apply (Hall r extraarg').
Qed.

Lemma finished_after_all (tasks : list (list error)) (buffer : list error) :
  finished {| pending := (fun _ => []) <$> tasks; errs := buffer |} = true.
Proof. apply finished_no_pending. simpl. by induction tasks. Qed.

Lemma Test_rounds_one_by_one (relToGOPATH : string → error + string)
    (go_test : nat → nat → process) (testDirs : list string) (picks : nat → list nat)
    (round : nat) (extraArgs : list (list string)) :
  (∀ r extraarg, extraArgs !! r = Some extraarg →
     picks (round + r)%nat
     = one_by_one (Test_tasks relToGOPATH (go_test (round + r)%nat) extraarg testDirs)) →
  Test_rounds relToGOPATH go_test testDirs picks round extraArgs
  = Some (head (mjoin (imap (fun r extraarg =>
                               mjoin (Test_tasks relToGOPATH (go_test (round + r)%nat)
                                        extraarg testDirs))
                         extraArgs))).
Proof.
  revert round. induction extraArgs as [|extraarg rest IH]; intros round Hpicks; [reflexivity|].
  cbn [Test_rounds]. rewrite imap_cons. simpl mjoin.
  pose proof (Hpicks 0%nat extraarg eq_refl) as H0. rewrite Nat.add_0_r in H0 |- *.
  rewrite H0, one_by_one_finishes by apply Test_tasks_fit.
  rewrite finished_after_all. simpl errs. unfold receive.
  destruct (mjoin (Test_tasks relToGOPATH (go_test round) extraarg testDirs)) as [|err buffer];
    [|done].
  simpl. rewrite IH.
  - do 3 f_equal. apply imap_ext. intros r extraarg' _. simpl.
    by replace (round + S r)%nat with (S (round + r)) by lia.
  - intros r extraarg' Hr. replace (S round + r)%nat with (round + S r)%nat by lia.
    by apply Hpicks.
Qed.

(** X17. When the tasks of every round end one after the other in the order
    of the test directories, [Test.run] returns, and what it returns is the
    first error of the first round in which a task sends one, or [nil] when
    no task sends any: the rounds after a failing round are not started. *)
Theorem Test_run_one_by_one (t : Test) (relToGOPATH : string → error + string)
    (go_test : nat → nat → process) (testDirs : list string) :
  Test_ExtraArgs t ≠ [] →
  Test_run t relToGOPATH go_test testDirs
    (Test_one_by_one relToGOPATH go_test testDirs (Test_ExtraArgs t))
  = Some (head (mjoin (imap (fun round extraarg =>
                               mjoin (Test_tasks relToGOPATH (go_test round) extraarg testDirs))
                         (Test_ExtraArgs t)))).
Proof.
  intros Hargs. unfold Test_run.
  destruct (Test_ExtraArgs t) as [|extraarg rest] eqn:Hex; [done|].
  change (length (extraarg :: rest) =? 0)%nat with false. cbv iota.
  rewrite Test_rounds_one_by_one; [done|].
  intros r extraarg' Hr. unfold Test_one_by_one. simpl. by rewrite Hr.
Qed.

Lemma Test_run_one_by_one_witness :
  Test_run (Config_Test defaultConfig) (fun d => inr d)
    (fun _ i => match i with O => silent_success | _ => exits 1 "FAIL" end) ["a"; "b"; "c"]
    (Test_one_by_one (fun d => inr d)
       (fun _ i => match i with O => silent_success | _ => exits 1 "FAIL" end) ["a"; "b"; "c"]
       (Test_ExtraArgs (Config_Test defaultConfig)))
  = Some (Some (ErrNew ("go test -v -race b failed:" +:+ newline +:+ "FAIL"))).
Proof.
  apply (Test_run_one_by_one (Config_Test defaultConfig) (fun d => inr d)
           (fun _ i => match i with O => silent_success | _ => exits 1 "FAIL" end)
           ["a"; "b"; "c"]).
  simpl. discriminate.
Defined.

(** ** More on the scheduler *)

Lemma unfinished_pending (st : sched_state) :
  finished st = false → ∃ i e rest, pending st !! i = Some (e :: rest).
Proof.
  unfold finished. induction (pending st) as [|[|e rest] l IH]; simpl; [done| |].
  - intros (i & e & rest & Hi)%IH. by exists (S i), e, rest.
  - intros _. by exists 0%nat, e, rest.
Qed.

(** X18. [run] can return exactly when the tasks send at most as many
    errors as there are enabled checks: with more errors than slots
    [wg.Wait()] returns in no interleaving, and with at most as many it
    returns in the interleaving that runs the tasks one after the other. *)
Theorem run_returns_iff_fits (config : Config) (runLevel : Z) (obs : nat → observation)
    (total : Z) :
  (∃ picks, run config runLevel obs total picks ≠ Waiting)
  ↔ (length (mjoin (imap (fun i c => task config c (obs i)) (EnabledChecks config runLevel)))
     <= length (EnabledChecks config runLevel))%nat.
Proof.
  split.
  - intros [picks Hret].
    destruct (Nat.le_gt_cases
                (length (mjoin (imap (fun i c => task config c (obs i))
                                  (EnabledChecks config runLevel))))
                (length (EnabledChecks config runLevel))) as [|Hlt]; [done|].
    by rewrite run_waits_when_overfull in Hret.
  - intros Hfit.
    exists (one_by_one (imap (fun i c => task config c (obs i)) (EnabledChecks config runLevel))).
    unfold run, start. rewrite one_by_one_finishes by done.
    rewrite finished_after_all. by destruct (drain _ _ _).
Qed.

(** X19. While the errors that the tasks of [run] send fit in the channel,
    the run cannot get stuck: in every state the tasks can reach in which
    some task has not ended, some task can perform its next send. *)
Theorem run_makes_progress (config : Config) (runLevel : Z) (obs : nat → observation)
    (st : sched_state) :
  let enabledChecks := EnabledChecks config runLevel in
  (length (all_sends (start config enabledChecks obs)) <= length enabledChecks)%nat →
  rtc (step (length enabledChecks)) (start config enabledChecks obs) st →
  finished st = false →
  ∃ st', step (length enabledChecks) st st'.
Proof.
  intros enabledChecks Hfit Hreach (i & e & rest & Hi)%unfinished_pending.
  destruct (Nat.lt_ge_cases (length (errs st)) (length enabledChecks)) as [Hroom|Hfull].
  - eexists. by eapply step_send.
  - exfalso. eapply (no_task_blocks_when_fits (length enabledChecks)); [exact Hfit|exact Hreach|].
    by exists e, rest.
Qed.

Lemma run_makes_progress_witness :
  ∃ st', step (length (EnabledChecks gofmt_only 0))
           (start gofmt_only (EnabledChecks gofmt_only 0) slow_but_clean) st'.
Proof.
  apply (run_makes_progress gofmt_only 0 slow_but_clean).
  - vm_compute. lia.
  - apply rtc_refl.
  - reflexivity.
Defined.

Lemma tasks_fit_without_double_failure (config : Config) (enabledChecks : list check)
    (obs : nat → observation) :
  (∀ i c, enabledChecks !! i = Some c →
     returned (obs i) = None ∨ duration (obs i) <= budget config c) →
  (length (mjoin (imap (fun i c => task config c (obs i)) enabledChecks))
   <= length enabledChecks)%nat.
Proof.
  intros Hone.
  rewrite <- (length_imap (fun i c => task config c (obs i)) enabledChecks).
  apply one_send_each_fits, Forall_lookup. intros i sends Hi.
  apply list_lookup_imap_Some in Hi as (c & Hc & ->).
  unfold task. destruct (Hone i c Hc) as [->|Hd].
  - destruct (_ <? _); simpl; lia.
  - destruct (Z.ltb_spec (budget config c) (duration (obs i))); [lia|].
    destruct (returned (obs i)); simpl; lia.
Qed.

(** X20. [run] returns whenever no enabled check both returns an error and
    takes longer than its budget: every task then sends at most one error,
    the errors fit in the channel, and in the interleaving that runs the
    tasks one after the other [run] prints them in the order of the checks
    and fails exactly when there is one. *)
Theorem run_returns_without_double_failure (config : Config) (runLevel : Z)
    (obs : nat → observation) (total : Z) :
  let enabledChecks := EnabledChecks config runLevel in
  let tasks := imap (fun i c => task config c (obs i)) enabledChecks in
  (∀ i c, enabledChecks !! i = Some c →
     returned (obs i) = None ∨ duration (obs i) <= budget config c) →
  (length (mjoin tasks) <= length enabledChecks)%nat ∧
  run config runLevel obs total (one_by_one tasks)
  = Returns (mjoin tasks)
      match mjoin tasks with
      | [] => None
      | _ :: _ => Some (ErrChecksFailed total)
      end.
Proof.
  intros enabledChecks tasks Hone.
  pose proof (tasks_fit_without_double_failure config enabledChecks obs Hone) as Hfit.
  split; [exact Hfit|].
  unfold run, start. fold enabledChecks. fold tasks.
  rewrite one_by_one_finishes by exact Hfit.
  rewrite finished_after_all. simpl errs.
  pose proof (drain_printed total (mjoin tasks) None) as Hp.
  pose proof (drain_result total (mjoin tasks) None) as Hr.
  destruct (drain _ _ _) as [printed r]. simpl in *. subst.
  by destruct (mjoin tasks).
Qed.

Lemma run_returns_without_double_failure_witness :
  (length (mjoin (imap (fun i c => task gofmt_only c (slow_but_clean i))
                    (EnabledChecks gofmt_only 0)))
   <= length (EnabledChecks gofmt_only 0))%nat ∧
  run gofmt_only 0 slow_but_clean 2100000000
    (one_by_one (imap (fun i c => task gofmt_only c (slow_but_clean i))
                   (EnabledChecks gofmt_only 0)))
  = Returns (mjoin (imap (fun i c => task gofmt_only c (slow_but_clean i))
                      (EnabledChecks gofmt_only 0)))
      match mjoin (imap (fun i c => task gofmt_only c (slow_but_clean i))
                     (EnabledChecks gofmt_only 0)) with
      | [] => None
      | _ :: _ => Some (ErrChecksFailed 2100000000)
      end.
Proof.
  apply (run_returns_without_double_failure gofmt_only 0 slow_but_clean 2100000000).
  intros i c Hc. left. reflexivity.
Defined.




(** ** More on the run levels *)

Lemma filter_le_sublist (l : list check) (R1 R2 : Z) :
  R1 <= R2 →
  filter (fun c => GetRunLevel c <= R1) l `sublist_of` filter (fun c => GetRunLevel c <= R2) l.
Proof.
  intros HR. induction l as [|c l IH]; [done|].
  rewrite !filter_cons. destruct (decide (GetRunLevel c <= R1)) as [H1|H1].
  - rewrite decide_True by lia. by apply sublist_skip.
  - destruct (decide (GetRunLevel c <= R2)); [by apply sublist_cons|done].
Qed.

(** X22. Raising the run level never disables a check: the checks enabled
    at a level are among those enabled at every higher level, and the
    enabled checks always come in the order of [AllChecks]. *)
Theorem EnabledChecks_monotone (config : Config) (R1 R2 : Z) :
  R1 <= R2 →
  EnabledChecks config R1 `sublist_of` EnabledChecks config R2 ∧
  EnabledChecks config R2 `sublist_of` AllChecks config.
Proof.
  intros HR. split; [by apply filter_le_sublist|apply sublist_filter].
Qed.

Lemma EnabledChecks_monotone_witness :
  EnabledChecks defaultConfig 1 `sublist_of` EnabledChecks defaultConfig 2 ∧
  EnabledChecks defaultConfig 2 `sublist_of` AllChecks defaultConfig.
Proof. apply (EnabledChecks_monotone defaultConfig 1 2). lia. Defined.

(** X23. A run level enables every check of the configuration exactly when
    no check has a higher run level; so the highest level that [mainImpl]
    accepts, 3, enables all checks of a configuration that keeps the run
    levels at most 3. *)
Theorem EnabledChecks_all (config : Config) (R : Z) :
  EnabledChecks config R = AllChecks config
  ↔ ∀ c, c ∈ AllChecks config → GetRunLevel c <= R.
Proof.
  unfold EnabledChecks. induction (AllChecks config) as [|c l IH].
  - split; [by intros _ c ?%elem_of_nil|done].
  - rewrite filter_cons. destruct (decide (GetRunLevel c <= R)) as [Hc|Hc].
    + split.
      * intros [= Hl]. intros c' [->|Hin]%elem_of_cons; [done|]. by apply IH.
      * intros Hall. f_equal. apply IH. intros c' Hin. apply Hall. by right.
    + split.
      * intros Heq. exfalso.
        pose proof (sublist_length _ _ (sublist_filter (fun c => GetRunLevel c <= R) l)) as Hlen.
        rewrite Heq in Hlen. simpl in Hlen. lia.
      * intros Hall. exfalso. apply Hc, Hall. by left.
Qed.

(** ** [help] and [installPrereq] *)

Lemma help_fold (TRAVIS_JOB_ID : string) (l : list check) (s : help_data) :
  NativeChecks (fold_left (help_step TRAVIS_JOB_ID) l s)
  = NativeChecks s ++ filter (fun c => length (GetPrerequisites TRAVIS_JOB_ID c) = 0%nat) l ∧
  OtherChecks (fold_left (help_step TRAVIS_JOB_ID) l s)
  = OtherChecks s ++ filter (fun c => length (GetPrerequisites TRAVIS_JOB_ID c) ≠ 0%nat) l ∧
  Max (fold_left (help_step TRAVIS_JOB_ID) l s)
  = (Max s `max` max_list ((fun c => String.length (GetName c)) <$> l))%nat.
Proof.
  revert s. induction l as [|c l IH]; intros s.
  - simpl. rewrite !app_nil_r. repeat split; lia.
  - simpl fold_left. destruct (IH (help_step TRAVIS_JOB_ID s c)) as (-> & -> & ->).
    rewrite !filter_cons, fmap_cons. unfold help_step.
    destruct (Nat.eqb_spec (length (GetPrerequisites TRAVIS_JOB_ID c)) 0) as [Hp|Hp];
      simpl NativeChecks; simpl OtherChecks; simpl Max.
    + rewrite decide_True, decide_False by (done || lia).
      rewrite <- app_assoc. split; [done|split; [done|]].
      simpl. destruct (Nat.ltb_spec (Max s) (String.length (GetName c))); lia.
    + rewrite decide_False, decide_True by done.
      rewrite <- app_assoc. split; [done|split; [done|]].
      simpl. destruct (Nat.ltb_spec (Max s) (String.length (GetName c))); lia.
Qed.

Lemma filter_partition_perm (P : check → Prop) `{!∀ c, Decision (P c)} (l : list check) :
  filter P l ++ filter (fun c => ¬ P c) l ≡ₚ l.
Proof.
  induction l as [|c l IH]; [done|].
  rewrite !filter_cons. destruct (decide (P c)).
  - rewrite decide_False by tauto. simpl. by rewrite IH.
  - rewrite decide_True by done. rewrite <- Permutation_middle. by rewrite IH.
Qed.

(** X24. [help] lists every check of the configuration exactly once: under
    the native checks when it has no prerequisite and under the other checks
    when it has, both lists in the order of [AllChecks]. The width of the
    name column is the length of the longest check name, which is at least
    that of "testcoverage". *)
Theorem help_lists (TRAVIS_JOB_ID : string) (config : Config) :
  NativeChecks (help TRAVIS_JOB_ID config)
  = filter (fun c => length (GetPrerequisites TRAVIS_JOB_ID c) = 0%nat) (AllChecks config) ∧
  OtherChecks (help TRAVIS_JOB_ID config)
  = filter (fun c => length (GetPrerequisites TRAVIS_JOB_ID c) ≠ 0%nat) (AllChecks config) ∧
  NativeChecks (help TRAVIS_JOB_ID config) ++ OtherChecks (help TRAVIS_JOB_ID config)
  ≡ₚ AllChecks config ∧
  (∀ c, c ∈ AllChecks config → (String.length (GetName c) <= Max (help TRAVIS_JOB_ID config))%nat) ∧
  (12 <= Max (help TRAVIS_JOB_ID config))%nat.
Proof.
  unfold help.
  destruct (help_fold TRAVIS_JOB_ID (AllChecks config)
              {| Max := 0; NativeChecks := []; OtherChecks := [] |}) as (-> & -> & ->).
  cbn [NativeChecks OtherChecks Max]. rewrite !app_nil_l, Nat.max_0_l.
  split; [done|split; [done|split; [apply filter_partition_perm|]]].
  assert (∀ c, c ∈ AllChecks config →
            (String.length (GetName c)
             <= max_list ((fun c => String.length (GetName c)) <$> AllChecks config))%nat)
    as Hmax.
  { intros c Hc. apply max_list_elem_of_le, list_elem_of_fmap. by exists c. }
  split; [exact Hmax|].
  apply (Hmax (CheckTestCoverage (Config_TestCoverage config))).
  unfold AllChecks. apply elem_of_app. left. set_solver.
Qed.

Lemma urls_of_elem_of (received : list string) (url : string) :
  url ∈ urls_of received ↔ url ∈ received.
Proof.
  unfold urls_of. by rewrite merge_sort_Permutation, elem_of_elements, elem_of_list_to_set.
Qed.

(** X25. The URLs that [installPrereq] installs are those received on the
    channel, each one once, in ascending order; they do not depend on the
    order in which the tasks sent them nor on how often a URL was sent. *)
Theorem urls_of_sorted (received : list string) :
  Sorted String.le (urls_of received) ∧
  NoDup (urls_of received) ∧
  (∀ url, url ∈ urls_of received ↔ url ∈ received) ∧
  (∀ received', (∀ url, url ∈ received' ↔ url ∈ received) →
                urls_of received' = urls_of received).
Proof.
  split; [apply Sorted_merge_sort, _|].
  split; [unfold urls_of; rewrite merge_sort_Permutation; apply NoDup_elements|].
  split; [apply urls_of_elem_of|].
  intros received' Hsame. unfold urls_of. do 2 f_equal.
  apply set_eq. intros url. by rewrite !elem_of_list_to_set.
Qed.

(** X26. [installPrereq] has nothing to install exactly when no URL was
    received, and then runs no command. Otherwise it succeeds exactly when
    [go get] on the sorted URLs is quiet or, failing that, [go get -u] on
    them is: what the first attempt printed or reported is forgotten. *)
Theorem installPrereq_passes (received : list string) (go : list string → process) :
  (urls_of received = [] ↔ received = []) ∧
  (received = [] → installPrereq received go = None) ∧
  (received ≠ [] →
   (installPrereq received go = None
    ↔ quiet (go (["go"; "get"] ++ urls_of received)) = true ∨
      quiet (go (["go"; "get"; "-u"] ++ urls_of received)) = true)).
Proof.
  assert (urls_of received = [] ↔ received = []) as Hnil.
  { split.
    - intros Hurls. destruct received as [|url received]; [done|].
      assert (url ∈ urls_of (url :: received)) as Hin by (apply urls_of_elem_of; by left).
      rewrite Hurls in Hin. by apply elem_of_nil in Hin.
    - by intros ->. }
  split; [exact Hnil|]. split.
  - intros ->. reflexivity.
  - intros Hne. unfold installPrereq.
    cbv zeta.
    destruct (Nat.eqb_spec (length (urls_of received)) 0) as [Hlen|_].
    { apply length_zero_iff_nil, Hnil in Hlen. done. }
    cbn [negb].
    pose proof (quiet_capture (go (["go"; "get"] ++ urls_of received))) as Hq1.
    pose proof (quiet_capture (go (["go"; "get"; "-u"] ++ urls_of received))) as Hq2.
    destruct (capture (go (["go"; "get"] ++ urls_of received))) as [[out1 code1] err1].
    destruct (capture (go (["go"; "get"; "-u"] ++ urls_of received))) as [[out2 code2] err2].
    assert (∀ (out : string) (code : Z) (err : option error),
              (∃ code', (out, code, err) = ("", code', None)) ↔ out = "" ∧ err = None)
      as Htriple.
    { intros out code err. split; [by intros (? & [= -> _ ->])|].
      intros [-> ->]. by exists code. }
    rewrite Hq1, Hq2, !Htriple.
    destruct out1 as [|c1 out1], err1 as [e1|], out2 as [|c2 out2], err2 as [e2|]; simpl;
      split; try done; try tauto; try (intros [[? ?]|[? ?]]; done); try (intros _; tauto).
Qed.

Lemma installPrereq_passes_witness :
  installPrereq ["golang.org/x/tools/cmd/vet"; "github.com/kisielk/errcheck"]
    (fun args => match args !! 2%nat with
                 | Some "-u" => silent_success
                 | _ => exits 1 "package golang.org/x/tools/cmd/vet: unrecognized import path"
                 end) = None.
Proof.
  apply (installPrereq_passes ["golang.org/x/tools/cmd/vet"; "github.com/kisielk/errcheck"]).
  - discriminate.
  - right. reflexivity.
Defined.
